(** * Communication/computation overlap scheduling (torch/_inductor/comms.py)

    A shallow embedding of the reordering passes of [comms.py]:
    [sink_waits], [raise_comms], [get_ancestors], [get_descendants],
    [decide_global_ordering_comms], [dumb_reordering] and
    [reorder_computation_for_overlap], followed by the properties the
    specification states about them.

    Conventions.
    - A node handle is its [get_name()] string: names are unique and stable,
      and Python's sets and dicts of nodes become [gset]/[gmap] over names.
    - The node attributes the passes read ([snode.node]'s class,
      [node_users], [inverse_users], [args], [meta], the runtime estimate)
      come from modules that are not part of this file's source
      ([ir], [scheduler], [analysis]); they are the fields of [graph].
    - Runtime estimates are exact rationals; rounding of Python floats is
      not modelled, and neither is the order in which line 195 adds them
      (the iteration order of a set): no statement below is about the
      value of such a sum on two runs.
    - Exceptions are the [Raise] outcome.  The [while] loops of
      [get_ancestors], [get_descendants] and [add_all_nodes] take fuel, one
      unit per round, and give [OutOfFuel] when it is exhausted; one [fuel]
      argument is handed to each of them.
    - Calls that talk to the outside ([breakpoint()], [print()], [printd])
      are recorded as events in a trace.  An event records that the call
      is made; what the callee then does (for [breakpoint()], the hook
      [sys.breakpointhook]: the debugger by default) lies outside, and the
      run is followed on as after a callee that returns. *)

From Stdlib Require Import QArith.
From stdpp Require Import gmap strings list sorting.

Local Open Scope Z_scope.

(** ** Data model *)

Abbreviation Node := string.

(** The class of [snode.node], as far as the passes test it with
    [isinstance]: [ir.CollectiveKernel], [ir.Wait], or anything else. *)
Inductive ir_class : Type :=
  | Compute
  | CollectiveKernel
  | Wait.

(** [node.meta["fusion_meta"]]: only its [snode] attribute is read. *)
Record fusion_meta : Type := { snode : Node }.

Record graph : Type := {
  ir_node : Node → ir_class;              (* class of [snode.node] *)
  node_users : Node → list Node;          (* successors *)
  inverse_users : Node → list Node;       (* predecessors *)
  args : Node → list Node;                (* [comm.args] *)
  get_runtime_snode : Node → Q;           (* [analysis.get_runtime_snode] *)
  meta : Node → gmap string fusion_meta;  (* [node.meta] *)
}.

Inductive exn : Type :=
  | AssertionError
  | UnboundLocalError
  | IndexError
  | KeyError.

Inductive outcome (A : Type) : Type :=
  | Ok (a : A)
  | Raise (e : exn)
  | OutOfFuel.
Arguments Ok {A} a.
Arguments Raise {A} e.
Arguments OutOfFuel {A}.

Definition outcome_bind {A B} (m : outcome A) (k : A → outcome B) : outcome B :=
  match m with
  | Ok a => k a
  | Raise e => Raise e
  | OutOfFuel => OutOfFuel
  end.

(** ** [sorted(x, key=...)]: a stable sort *)

Section py_sorted.
Context {A K : Type} (key : A → K) (leb : K → K → bool).

Fixpoint insert_by (x : A) (l : list A) : list A :=
  match l with
  | [] => [x]
  | y :: l' => if leb (key x) (key y) then x :: l else y :: insert_by x l'
  end.

Definition py_sorted (l : list A) : list A := foldr insert_by [] l.
End py_sorted.

(** [tuple_sorted(x)]: [sorted(x, key=lambda x: x.get_name())].  A set
    argument is passed as [elements s]. *)
Definition tuple_sorted (x : list Node) : list Node :=
  py_sorted (λ n : Node, n) String.leb x.

Section passes.
Variable g : graph.

Definition is_wait (n : Node) : bool :=
  match ir_node g n with Wait => true | _ => false end.

Definition is_comm (n : Node) : bool :=
  match ir_node g n with CollectiveKernel => true | _ => false end.

(** ** [sink_waits] *)

(** Lines 28-31: flush the pending waits that [snode] uses. *)
Definition flush_waits (snode : Node) (new_result : list Node)
    (cur_waits : gset Node) : list Node * gset Node :=
  foldl (λ '(new_result, cur_waits) wait,
           if bool_decide (snode ∈ node_users g wait)
           then (new_result ++ [wait], cur_waits ∖ {[wait]})
           else (new_result, cur_waits))
        (new_result, cur_waits) (tuple_sorted (elements cur_waits)).

(** Lines 24-33.  [node] is the function's local variable of that name:
    it is bound only by the loop of line 34, so it is still unbound
    ([None]) when line 33 reads it. *)
Fixpoint sink_waits_scan (result : list Node) (node : option Node)
    (new_result : list Node) (cur_waits : gset Node)
    : outcome (list Node * gset Node) :=
  match result with
  | [] => Ok (new_result, cur_waits)
  | snode :: result' =>
      if is_wait snode
      then sink_waits_scan result' node new_result ({[snode]} ∪ cur_waits)
      else
        let '(new_result, cur_waits) := flush_waits snode new_result cur_waits in
        match node with
        | None => Raise UnboundLocalError
        | Some n => sink_waits_scan result' node (new_result ++ [n]) cur_waits
        end
  end.

Definition sink_waits (result : list Node) : outcome (list Node) :=
  outcome_bind (sink_waits_scan result None [] ∅)
    (λ '(new_result, cur_waits),
       Ok (new_result ++ tuple_sorted (elements cur_waits))).

(** ** [raise_comms] *)

(** Lines 50-52: pop pending comms from the front while some pending comm
    has [snode] among its [args]. *)
Fixpoint pop_comms (snode : Node) (cur_comms new_result : list Node)
    : list Node * list Node :=
  match cur_comms with
  | [] => (cur_comms, new_result)
  | comm :: cur_comms' =>
      if existsb (λ comm, bool_decide (snode ∈ args g comm)) cur_comms
      then pop_comms snode cur_comms' (new_result ++ [comm])
      else (cur_comms, new_result)
  end.

(** Lines 47-53: the body of the loop, on the pair of the pending comms
    and [new_result]. *)
Definition raise_comms_body (acc : list Node * list Node) (snode : Node)
    : list Node * list Node :=
  let '(cur_comms, new_result) := acc in
  if is_comm snode
  then (cur_comms ++ [snode], new_result)
  else
    let '(cur_comms, new_result) := pop_comms snode cur_comms new_result in
    (cur_comms, new_result ++ [snode]).

(** Line 46: the loop over [reversed(result)]. *)
Definition raise_comms_scan (result : list Node) : list Node * list Node :=
  foldl raise_comms_body ([], []) (reverse result).

Definition raise_comms (result : list Node) : outcome (list Node) :=
  let '(cur_comms, new_result) := raise_comms_scan result in
  if bool_decide (length cur_comms ≤ 1)%nat
  then Ok (reverse (new_result ++ tuple_sorted cur_comms))
  else Raise AssertionError.

(** ** [get_ancestors] and [get_descendants] *)

(** One round of the [while] loop of lines 64-71 (78-85): the [for] over
    [cur_nodes] and over each node's [edges]. *)
Definition bfs_round (edges : Node → list Node) (seen : gset Node)
    (cur_nodes : list Node) : gset Node * list Node :=
  foldl (λ acc node,
           foldl (λ '(seen, new_nodes) inp,
                    if bool_decide (inp ∈ seen)
                    then (seen, new_nodes)
                    else ({[inp]} ∪ seen, new_nodes ++ [inp]))
                 acc (edges node))
        (seen, []) cur_nodes.

Fixpoint bfs_loop (fuel : nat) (edges : Node → list Node) (seen : gset Node)
    (cur_nodes : list Node) : outcome (gset Node) :=
  match cur_nodes with
  | [] => Ok seen
  | _ :: _ =>
      match fuel with
      | O => OutOfFuel
      | S fuel =>
          let '(seen, new_nodes) := bfs_round edges seen cur_nodes in
          bfs_loop fuel edges seen new_nodes
      end
  end.

Definition get_ancestors (fuel : nat) (node : Node) : outcome (gset Node) :=
  bfs_loop fuel (inverse_users g) ∅ [node].

Definition get_descendants (fuel : nat) (node : Node) : outcome (gset Node) :=
  bfs_loop fuel (node_users g) ∅ [node].

End passes.

(** ** [decide_global_ordering_comms] *)

(** [dependencies.WeakDep(name)]. *)
Inductive Dep : Type := WeakDep (name : string).

(** Modelled from the spec: [scheduler.BaseSchedulerNode.add_mutation_dep]
    is not part of the source; it "appends a synthetic dependency" to the
    node.  The store maps a node to the dependencies added to it so far. *)
Definition add_mutation_dep (n : Node) (d : Dep) (deps : gmap Node (list Dep))
    : gmap Node (list Dep) :=
  <[n := default [] (deps !! n) ++ [d]]> deps.

Definition decide_global_ordering_comms (g : graph) (nodes : list Node)
    (deps : gmap Node (list Dep)) : gmap Node (list Dep) :=
  let comm_nodes := List.filter (is_comm g) nodes in
  foldl (λ deps i,
           match comm_nodes !! i, comm_nodes !! (i - 1)%nat with
           | Some cur, Some prev => add_mutation_dep cur (WeakDep prev) deps
           | _, _ => deps
           end)
        deps (seq 1 (length comm_nodes - 1)).

(** ** [dumb_reordering] *)

(** Line 107: [[node.meta["fusion_meta"].snode for node in nodes]]. *)
Fixpoint fusion_snodes (g : graph) (nodes : list Node) : outcome (list Node) :=
  match nodes with
  | [] => Ok []
  | node :: nodes' =>
      match meta g node !! "fusion_meta" with
      | Some fm => outcome_bind (fusion_snodes g nodes') (λ out, Ok (snode fm :: out))
      | None => Raise KeyError
      end
  end.

Definition has_fusion_meta (g : graph) (node : Node) : bool :=
  bool_decide (is_Some (meta g node !! "fusion_meta")).

Definition dumb_reordering (g : graph) (nodes : list Node) : outcome (list Node) :=
  let nodes := List.filter (has_fusion_meta g) nodes in
  outcome_bind (sink_waits g nodes) (λ nodes,
  outcome_bind (raise_comms g nodes) (λ nodes,
  fusion_snodes g nodes)).

(** ** Effects: the trace of calls to the outside *)

(** What [debug_print] and [printd] are given (the f-strings' data). *)
Inductive debug_msg : Type :=
  | MsgAdding (node : Node)                       (* f"adding {node}" *)
  | MsgStart (prev cur : Node) (is_comm_blocking : bool)
             (rolled_over_compute : option Q)      (* f"Start ..." *)
  | MsgPriority1                                  (* "Priority 1" *)
  | MsgPriority2                                  (* "Priority 2" *)
  | MsgPriority3                                  (* "priority 3" *)
  | MsgOverlap (prev : Node) (total_cost comm_cost : Q)
  | MsgEmpty                                      (* debug_print() *)
  | MsgResult (result : list Node).               (* printd(result) *)

Inductive event : Type :=
  | EvBreakpoint                 (* breakpoint() *)
  | EvPrint                      (* print() *)
  | EvPrintd (msg : debug_msg).  (* printd(...) *)

(** A computation appends to the trace and ends in an [outcome]. *)
Definition M (A : Type) : Type := list event → list event * outcome A.

Definition ret {A} (a : A) : M A := λ tr, (tr, Ok a).

Definition bind {A B} (m : M A) (k : A → M B) : M B :=
  λ tr, match m tr with
        | (tr', Ok a) => k a tr'
        | (tr', Raise e) => (tr', Raise e)
        | (tr', OutOfFuel) => (tr', OutOfFuel)
        end.

Definition lift {A} (o : outcome A) : M A := λ tr, (tr, o).

Definition emit (e : event) : M unit := λ tr, (tr ++ [e], Ok tt).

Definition py_assert (b : bool) : M unit :=
  if b then ret tt else lift (Raise AssertionError).

Declare Scope comms_scope.
Delimit Scope comms_scope with comms.
Notation "x <- c1 ;; c2" := (bind c1 (λ x, c2))
  (at level 100, c1 at next level, right associativity) : comms_scope.
Notation "c1 ;; c2" := (bind c1 (λ _, c2))
  (at level 100, right associativity) : comms_scope.
Local Open Scope comms_scope.

(** A [for] loop without [break], threading its state. *)
Fixpoint for_each {A B} (l : list B) (a : A) (body : A → B → M A) : M A :=
  match l with
  | [] => ret a
  | x :: l' => a' <- body a x ;; for_each l' a' body
  end.

Definition dict_get {V} (d : gmap Node V) (k : Node) : M V :=
  match d !! k with
  | Some v => ret v
  | None => lift (Raise KeyError)
  end.

Definition list_get (l : list Node) (i : nat) : M Node :=
  match l !! i with
  | Some v => ret v
  | None => lift (Raise IndexError)
  end.

(** ** [reorder_computation_for_overlap] *)

(** The pools of the scheduler: the closure variables [indeg],
    [free_nodes], [unused_nodes] and [result] that [add_node] mutates. *)
Record sched : Type := {
  indeg : gmap Node Z;
  free_nodes : gset Node;
  unused_nodes : gset Node;
  result : list Node;
}.

Section overlap.
Variable g : graph.
(** [os.environ]. *)
Variable environ : gmap string string.

(** The call of the builtin [breakpoint()], as an event. *)
Definition breakpoint : M unit := emit EvBreakpoint.
Definition print : M unit := emit EvPrint.
Definition printd (s : debug_msg) : M unit := emit (EvPrintd s).

Definition debug_print (s : debug_msg) : M unit :=
  if bool_decide (environ !! "INDUCTOR_COMM_DEBUG" = Some "1")
  then printd s
  else ret tt.

(** Lines 138-142. *)
Definition count_user (indeg : gmap Node Z) (user : Node) : gmap Node Z :=
  match indeg !! user with
  | Some d => <[user := d + 1]> indeg
  | None => indeg
  end.

Definition init_indeg (snodes : list Node) : gmap Node Z :=
  foldl (λ indeg snode, foldl count_user indeg (node_users g snode))
        (list_to_map ((λ k, (k, 0)) <$> snodes)) snodes.

(** Lines 156-160. *)
Definition release_user (st : sched) (user : Node) : sched :=
  match indeg st !! user with
  | Some d =>
      {| indeg := <[user := d - 1]> (indeg st);
         free_nodes := if bool_decide (d - 1 = 0)
                       then {[user]} ∪ free_nodes st
                       else free_nodes st;
         unused_nodes := unused_nodes st;
         result := result st |}
  | None => st
  end.

Definition add_node (st : sched) (node : Node) : M sched :=
  py_assert (bool_decide (node ∈ unused_nodes st)) ;;
  py_assert (bool_decide (node ∈ free_nodes st)) ;;
  debug_print (MsgAdding node) ;;
  ret (foldl release_user
         {| indeg := indeg st;
            free_nodes := free_nodes st ∖ {[node]};
            unused_nodes := unused_nodes st ∖ {[node]};
            result := result st ++ [node] |}
         (node_users g node)).

(** Lines 171-174: the body of the [for] loop, on the pools, [all_nodes]
    and [progress]. *)
Definition add_all_body (acc : sched * gset Node * bool) (node : Node)
    : M (sched * gset Node * bool) :=
  let '(st, all_nodes, progress) := acc in
  if bool_decide (node ∈ free_nodes st)
  then st <- add_node st node ;; ret (st, all_nodes ∖ {[node]}, true)
  else ret (st, all_nodes, progress).

(** Lines 169-174: one pass over [tuple_sorted(all_nodes)]. *)
Definition add_all_pass (st : sched) (all_nodes : gset Node)
    : M (sched * gset Node * bool) :=
  for_each (tuple_sorted (elements all_nodes)) (st, all_nodes, false)
    add_all_body.

(** Lines 168-177. *)
Fixpoint add_all_loop (fuel : nat) (st : sched) (all_nodes : gset Node)
    : M sched :=
  if bool_decide (0 < size all_nodes)%nat then
    match fuel with
    | O => lift OutOfFuel
    | S fuel =>
        r <- add_all_pass st all_nodes ;;
        let '(st, all_nodes, progress) := r in
        (if negb progress then breakpoint ;; print else ret tt) ;;
        add_all_loop fuel st all_nodes
    end
  else ret st.

Definition add_all_nodes (fuel : nat) (st : sched) (snodes : list Node)
    : M sched :=
  let all_nodes : gset Node := list_to_set snodes in
  py_assert (forallb (λ node, bool_decide (node ∈ unused_nodes st))
                     (elements all_nodes)) ;;
  add_all_loop fuel st all_nodes.

(** Lines 135-136: [{node: f(node) for node in comm_nodes}]. *)
Fixpoint comm_dict (f : Node → outcome (gset Node)) (comm_nodes : list Node)
    (d : gmap Node (gset Node)) : outcome (gmap Node (gset Node)) :=
  match comm_nodes with
  | [] => Ok d
  | node :: comm_nodes' =>
      outcome_bind (f node) (λ s, comm_dict f comm_nodes' (<[node := s]> d))
  end.

Section main_loop.
Variable fuel : nat.
Variable comm_nodes : list Node.
Variables comm_ancestors comm_descendants : gmap Node (gset Node).

(** Lines 211-215. *)
Fixpoint earliest_from (idx : nat) (comms : list Node) (node : Node) : nat :=
  match comms with
  | [] => idx
  | c :: comms' =>
      if bool_decide (node ∈ default ∅ (comm_ancestors !! c))
      then idx
      else earliest_from (S idx) comms' node
  end.

Definition earliest_comm_descendant (node : Node) : nat :=
  earliest_from 0 comm_nodes node.

(** Lines 221-234: the Priority 2 loop, with its [break] and
    [continue]. *)
Fixpoint priority2_loop (comm_cost : Q) (overlappable_nodes : list Node)
    (st : sched) (total_cost : Q) : M (sched * Q) :=
  match overlappable_nodes with
  | [] => ret (st, total_cost)
  | snode :: rest =>
      if Qle_bool comm_cost total_cost then ret (st, total_cost)
      else if negb (is_comm g snode) then
        let runtime_cost := get_runtime_snode g snode in
        if Qle_bool (comm_cost - total_cost) (runtime_cost / 2)
        then priority2_loop comm_cost rest st total_cost
        else
          st <- add_node st snode ;;
          priority2_loop comm_cost rest st
            (total_cost + get_runtime_snode g snode)%Q
      else priority2_loop comm_cost rest st total_cost
  end.

(** Lines 183-252: the body of the loop over [idx]. *)
Definition overlap_step (acc : sched * Q) (idx : nat) : M (sched * Q) :=
  let '(st, rolled_over_compute) := acc in
  prev <- list_get comm_nodes (idx - 1) ;;
  desc_prev <- dict_get comm_descendants prev ;;
  cur <- list_get comm_nodes idx ;;
  anc_cur <- dict_get comm_ancestors cur ;;
  let is_comm_blocking := bool_decide (0 < size (desc_prev ∩ anc_cur))%nat in
  debug_print (MsgStart prev cur is_comm_blocking
                 (if negb is_comm_blocking
                  then Some rolled_over_compute else None)) ;;
  debug_print MsgPriority1 ;;
  let priority1 := unused_nodes st ∩ (anc_cur ∖ desc_prev) in
  let total_cost :=
    (rolled_over_compute
     + foldl Qplus 0 (get_runtime_snode g <$> elements priority1))%Q in
  let comm_cost := get_runtime_snode g prev in
  st <- add_all_nodes fuel st (tuple_sorted (elements priority1)) ;;
  debug_print MsgPriority2 ;;
  let group1_cost := total_cost in
  r <- (if Qle_bool comm_cost total_cost then ret (st, total_cost)
        else
          let overlappable_nodes :=
            tuple_sorted (elements (free_nodes st ∖ desc_prev)) in
          let overlappable_nodes :=
            py_sorted earliest_comm_descendant Nat.leb overlappable_nodes in
          priority2_loop comm_cost overlappable_nodes st total_cost) ;;
  let '(st, total_cost) := r in
  let rollable_compute := (total_cost - group1_cost)%Q in
  let rolled_over_compute :=
    if is_comm_blocking then 0%Q else rollable_compute in
  debug_print (MsgOverlap prev total_cost comm_cost) ;;
  debug_print MsgPriority3 ;;
  let priority3 := unused_nodes st ∩ anc_cur in
  st <- add_all_nodes fuel st (elements priority3 ++ [cur]) ;;
  debug_print MsgEmpty ;;
  ret (st, rolled_over_compute).
End main_loop.

(** Lines 135-254: everything between the early return and the cleanup
    passes; gives the [result] list built by [add_node]. *)
Definition overlap_schedule (fuel : nat) (snodes comm_nodes : list Node)
    : M (list Node) :=
  comm_ancestors <- lift (comm_dict (get_ancestors g fuel) comm_nodes ∅) ;;
  comm_descendants <- lift (comm_dict (get_descendants g fuel) comm_nodes ∅) ;;
  let indeg := init_indeg snodes in
  breakpoint ;;
  let free_nodes : gset Node :=
    list_to_set
      (List.filter (λ node, bool_decide (indeg !! node = Some 0)) snodes) in
  let st := {| indeg := indeg; free_nodes := free_nodes;
               unused_nodes := list_to_set snodes; result := [] |} in
  c0 <- list_get comm_nodes 0 ;;
  anc0 <- dict_get comm_ancestors c0 ;;
  st <- add_all_nodes fuel st (elements anc0 ++ [c0]) ;;
  r <- for_each (seq 1 (size comm_ancestors - 1)) (st, 0%Q)
         (overlap_step fuel comm_nodes comm_ancestors comm_descendants) ;;
  st <- add_all_nodes fuel r.1 (elements (unused_nodes r.1)) ;;
  ret (result st).

Definition reorder_computation_for_overlap (fuel : nat) (snodes : list Node)
    : M (list Node) :=
  let comm_nodes := List.filter (is_comm g) snodes in
  if bool_decide (length comm_nodes = 0)%nat then ret snodes
  else
    result <- overlap_schedule fuel snodes comm_nodes ;;
    result <- lift (sink_waits g result) ;;
    result <- lift (raise_comms g result) ;;
    printd (MsgResult result) ;;
    ret result.

End overlap.

(** * Example graphs *)

Definition no_meta : Node → gmap string fusion_meta := λ _, ∅.

(** Scenario C: a wait whose only user is [D], and an unrelated [X]. *)
Definition scenario_C : graph := {|
  ir_node n := if String.eqb n "WAIT" then Wait else Compute;
  node_users n := if String.eqb n "WAIT" then ["D"] else [];
  inverse_users n := if String.eqb n "D" then ["WAIT"] else [];
  args n := if String.eqb n "D" then ["WAIT"] else [];
  get_runtime_snode _ := 1%Q;
  meta := no_meta;
|}.

(** Two communication nodes without dependencies. *)
Definition two_comms : graph := {|
  ir_node _ := CollectiveKernel;
  node_users _ := [];
  inverse_users _ := [];
  args _ := [];
  get_runtime_snode _ := 1%Q;
  meta := no_meta;
|}.

(** [W] carries fusion metadata, [X] does not. *)
Definition one_unfused : graph := {|
  ir_node n := if String.eqb n "W" then Wait else Compute;
  node_users _ := [];
  inverse_users _ := [];
  args _ := [];
  get_runtime_snode _ := 1%Q;
  meta n := if String.eqb n "W"
            then {["fusion_meta" := {| snode := "W_snode" |}]}
            else ∅;
|}.

(** Scenario A: [A] feeds the communication node [B], which feeds [C]. *)
Definition scenario_A : graph := {|
  ir_node n := if String.eqb n "B" then CollectiveKernel else Compute;
  node_users n :=
    if String.eqb n "A" then ["B"] else if String.eqb n "B" then ["C"] else [];
  inverse_users n :=
    if String.eqb n "B" then ["A"] else if String.eqb n "C" then ["B"] else [];
  args n :=
    if String.eqb n "B" then ["A"] else if String.eqb n "C" then ["B"] else [];
  get_runtime_snode n := if String.eqb n "B" then 10%Q else 1%Q;
  meta := no_meta;
|}.

(** A dependency cycle between the compute node [A] and the communication
    node [C]. *)
Definition cyclic : graph := {|
  ir_node n := if String.eqb n "C" then CollectiveKernel else Compute;
  node_users n :=
    if String.eqb n "A" then ["C"] else if String.eqb n "C" then ["A"] else [];
  inverse_users n :=
    if String.eqb n "A" then ["C"] else if String.eqb n "C" then ["A"] else [];
  args n :=
    if String.eqb n "A" then ["C"] else if String.eqb n "C" then ["A"] else [];
  get_runtime_snode _ := 1%Q;
  meta := no_meta;
|}.

(** Two independent communication nodes [C1], [C2] of cost 10 and one
    independent compute node [X] of cost [c]. *)
Definition comms_and_compute (c : Q) : graph := {|
  ir_node n := if String.eqb n "X" then Compute else CollectiveKernel;
  node_users _ := [];
  inverse_users _ := [];
  args _ := [];
  get_runtime_snode n := if String.eqb n "X" then c else 10%Q;
  meta := no_meta;
|}.

(** Compute nodes only, with the edge [A → B]. *)
Definition compute_only : graph := {|
  ir_node _ := Compute;
  node_users n := if String.eqb n "A" then ["B"] else [];
  inverse_users n := if String.eqb n "B" then ["A"] else [];
  args n := if String.eqb n "B" then ["A"] else [];
  get_runtime_snode _ := 1%Q;
  meta := no_meta;
|}.

Definition debug_off : gmap string string := ∅.

(** The pools once [C1] has been scheduled, in the run on [C1; X; C2]. *)
Definition after_first_comm : sched := {|
  indeg := {["C1" := 0; "X" := 0; "C2" := 0]};
  free_nodes := {["X"; "C2"]};
  unused_nodes := {["X"; "C2"]};
  result := ["C1"];
|}.

(** The pools once Priority 2 has taken [X] after [C1]. *)
Definition after_priority2 : sched := {|
  indeg := {["C1" := 0; "X" := 0; "C2" := 0]};
  free_nodes := {["C2"]};
  unused_nodes := {["C2"]};
  result := ["C1"; "X"];
|}.

(** * Specification predicates *)

(** A dependency edge [a → b]: a true data dependency ([b] uses [a]) or a
    synthetic one added by [add_mutation_dep]. *)
Definition depends_on (g : graph) (deps : gmap Node (list Dep)) (a b : Node)
    : Prop :=
  b ∈ node_users g a ∨ WeakDep a ∈ default [] (deps !! b).

(** Dependency soundness of a sequence: [index(a) < index(b)] for every
    edge between two of its nodes. *)
Definition dependency_sound (g : graph) (deps : gmap Node (list Dep))
    (l : list Node) : Prop :=
  ∀ a b i j, depends_on g deps a b →
             l !! i = Some a → l !! j = Some b → (i < j)%nat.

(** One step along [edges]: [b] is among [edges a]. *)
Definition edge_step (edges : Node → list Node) (a b : Node) : Prop :=
  b ∈ edges a.

(** The number of [node_users] entries that name [x] at the nodes of
    [snodes] that are not yet in [res]: the predecessors [x] still waits
    for. *)
Definition pending_preds (g : graph) (snodes res : list Node) (x : Node) : nat :=
  sum_list_with
    (λ a, if bool_decide (a ∈ res) then 0%nat
          else count_occ String.string_dec (node_users g a) x)
    snodes.

(** What [add_node] keeps true of the pools, for the input [snodes]:
    [result] holds distinct input nodes, [unused_nodes] the input nodes
    that are not in it; [indeg] counts, for each input node, the
    predecessors it still waits for, and a free node waits for none;
    every node of [result] stands behind the input nodes it uses. *)
Definition pools_inv (g : graph) (snodes : list Node) (st : sched) : Prop :=
  NoDup (result st) ∧
  (∀ x, x ∈ unused_nodes st ↔ x ∈ snodes ∧ x ∉ result st) ∧
  (∀ x, x ∈ result st → x ∈ snodes) ∧
  (∀ x, indeg st !! x
        = if bool_decide (x ∈ snodes)
          then Some (Z.of_nat (pending_preds g snodes (result st) x))
          else None) ∧
  (∀ x, x ∈ free_nodes st →
        x ∈ snodes ∧ pending_preds g snodes (result st) x = 0%nat) ∧
  (∀ l1 b l2 a, result st = l1 ++ b :: l2 →
                a ∈ snodes → b ∈ node_users g a → a ∈ l1).

(** ** Predicates on traced computations *)

(** [ensures m Q]: whenever [m] returns a value, the value satisfies [Q]. *)
Definition ensures {A} (m : M A) (Q : A → Prop) : Prop :=
  ∀ tr tr' a, m tr = (tr', Ok a) → Q a.

(** [extends m]: [m] only appends to the trace. *)
Definition extends {A} (m : M A) : Prop :=
  ∀ tr, tr `prefix_of` (m tr).1.

(** What a pass keeps true of the pools, relative to the state [st0] and
    batch [all0] it started from: [result] has only grown, and a node that
    left the batch is in [result]. *)
Definition batch_inv (st0 : sched) (all0 : gset Node)
    (acc : sched * gset Node * bool) : Prop :=
  result st0 `prefix_of` result acc.1.1 ∧
  ∀ x, x ∈ all0 → x ∉ acc.1.2 → x ∈ result acc.1.1.

(** * Properties *)

(** ** The stable sort *)

Section py_sorted_facts.
Context {A K : Type} (key : A → K) (leb : K → K → bool).

Lemma insert_by_Permutation x l : insert_by key leb x l ≡ₚ x :: l.
Proof.
  induction l as [|y l IH]; simpl; [done|].
  destruct (leb (key x) (key y)); [done|].
  rewrite IH. apply Permutation_swap.
Qed.

Lemma py_sorted_Permutation l : py_sorted key leb l ≡ₚ l.
Proof.
  induction l as [|x l IH]; simpl; [done|].
  rewrite insert_by_Permutation. by rewrite IH.
Qed.

Lemma py_sorted_length l : length (py_sorted key leb l) = length l.
Proof. by rewrite py_sorted_Permutation. Qed.

Lemma py_sorted_elem_of x l : x ∈ py_sorted key leb l ↔ x ∈ l.
Proof. by rewrite py_sorted_Permutation. Qed.

(** When every two keys tie, the stable sort changes nothing. *)
Lemma py_sorted_ties_total l :
  (∀ x y, leb (key x) (key y) = true) → py_sorted key leb l = l.
Proof.
  intros Hties. induction l as [|x l IH]; simpl; [done|].
  rewrite IH. destruct l as [|y l]; simpl; [done|]. by rewrite Hties.
Qed.
End py_sorted_facts.

Lemma tuple_sorted_length l : length (tuple_sorted l) = length l.
Proof. apply py_sorted_length. Qed.

Lemma tuple_sorted_elem_of x l : x ∈ tuple_sorted l ↔ x ∈ l.
Proof. apply py_sorted_elem_of. Qed.

(** ** [sink_waits] *)

Section sink_waits_facts.
Variable g : graph.

(** Line 33 is reached at the first node that is not a wait, and [node]
    is unbound there. *)
Lemma sink_waits_scan_unbound result new_result cur_waits :
  existsb (λ x, negb (is_wait g x)) result = true →
  sink_waits_scan g result None new_result cur_waits = Raise UnboundLocalError.
Proof.
  revert new_result cur_waits.
  induction result as [|x result IH]; intros new_result cur_waits; simpl.
  - discriminate.
  - destruct (is_wait g x); simpl.
    + apply IH.
    + intros _. by destruct (flush_waits g x new_result cur_waits).
Qed.

Lemma sink_waits_scan_all_waits result node new_result cur_waits :
  forallb (is_wait g) result = true →
  sink_waits_scan g result node new_result cur_waits
  = Ok (new_result, list_to_set result ∪ cur_waits).
Proof.
  revert cur_waits.
  induction result as [|x result IH]; intros cur_waits; simpl.
  - intros _. f_equal. f_equal. set_solver.
  - destruct (is_wait g x); simpl; [|discriminate].
    intros Hall. rewrite IH by done. f_equal. f_equal. set_solver.
Qed.

Lemma forallb_existsb_negb {A} (p : A → bool) l :
  forallb p l = false ↔ existsb (λ x, negb (p x)) l = true.
Proof.
  induction l as [|x l IH]; simpl; [done|].
  destruct (p x); simpl; [apply IH|done].
Qed.

Lemma forallb_false_intro {A} (p : A → bool) l :
  (∃ x, x ∈ l ∧ p x = false) → forallb p l = false.
Proof.
  intros (x & Hx & Hp). induction Hx as [x l|x y l _ IH]; simpl.
  - by rewrite Hp.
  - rewrite IH by done. apply andb_false_r.
Qed.

(** [sink_waits] returns a list only on a sequence of waits, and then
    gives the distinct waits in name order. *)
Lemma sink_waits_all_waits result :
  forallb (is_wait g) result = true →
  sink_waits g result = Ok (tuple_sorted (elements (list_to_set result : gset Node))).
Proof.
  intros Hall. unfold sink_waits.
  rewrite sink_waits_scan_all_waits by done. simpl.
  by rewrite (right_id_L ∅ (∪)).
Qed.

Lemma sink_waits_not_all_waits result :
  forallb (is_wait g) result = false →
  sink_waits g result = Raise UnboundLocalError.
Proof.
  intros Hex. apply forallb_existsb_negb in Hex. unfold sink_waits.
  by rewrite sink_waits_scan_unbound.
Qed.
End sink_waits_facts.

(** ** [raise_comms] *)

Section raise_comms_facts.
Variable g : graph.

(** Popping moves a prefix of the pending comms to [new_result]. *)
Lemma pop_comms_split snode cur_comms new_result :
  ∃ popped,
    cur_comms = popped ++ (pop_comms g snode cur_comms new_result).1 ∧
    (pop_comms g snode cur_comms new_result).2 = new_result ++ popped.
Proof.
  revert new_result.
  induction cur_comms as [|c cur IH]; intros new_result.
  - exists []. simpl. by rewrite app_nil_r.
  - cbn [pop_comms].
    destruct (existsb _ (c :: cur)).
    + destruct (IH (new_result ++ [c])) as (popped & Hcur & Hnew).
      exists (c :: popped). split.
      * simpl. by rewrite <- Hcur.
      * rewrite Hnew. by rewrite <- app_assoc.
    + exists []. simpl. by rewrite app_nil_r.
Qed.

Lemma raise_comms_body_inv acc snode :
  (raise_comms_body g acc snode).1 ++ (raise_comms_body g acc snode).2
    ≡ₚ snode :: acc.1 ++ acc.2 ∧
  (Forall (λ c, is_comm g c = true) acc.1 →
   Forall (λ c, is_comm g c = true) (raise_comms_body g acc snode).1).
Proof.
  destruct acc as [cur_comms new_result]. unfold raise_comms_body.
  destruct (is_comm g snode) eqn:Hcomm; simpl.
  - split.
    + rewrite <- app_assoc. simpl.
      by rewrite <- Permutation_middle.
    + intros Hall. apply Forall_app. split; [done|]. by constructor.
  - destruct (pop_comms_split snode cur_comms new_result)
      as (popped & Hcur & Hnew).
    destruct (pop_comms g snode cur_comms new_result) as [cur' new'].
    simpl in *. subst new' cur_comms. split.
    + transitivity ((cur' ++ new_result ++ popped) ++ [snode]).
      { by rewrite <- !app_assoc. }
      rewrite <- Permutation_cons_append. apply Permutation_skip.
      rewrite (Permutation_app_comm popped cur'), <- app_assoc.
      apply Permutation_app_head, Permutation_app_comm.
    + intros Hall. by apply Forall_app in Hall as [_ ?].
Qed.

Lemma raise_comms_fold_inv l acc :
  (foldl (raise_comms_body g) acc l).1 ++ (foldl (raise_comms_body g) acc l).2
    ≡ₚ l ++ acc.1 ++ acc.2 ∧
  (Forall (λ c, is_comm g c = true) acc.1 →
   Forall (λ c, is_comm g c = true) (foldl (raise_comms_body g) acc l).1).
Proof.
  revert acc. induction l as [|x l IH]; intros acc; simpl; [done|].
  destruct (IH (raise_comms_body g acc x)) as [Hperm Hcomm].
  destruct (raise_comms_body_inv acc x) as [Hperm1 Hcomm1].
  split.
  - rewrite Hperm, Hperm1. by rewrite <- Permutation_middle.
  - auto.
Qed.

(** The nodes still pending after the scan are communication nodes. *)
Lemma raise_comms_scan_pending result :
  Forall (λ c, is_comm g c = true) (raise_comms_scan g result).1.
Proof. apply raise_comms_fold_inv. constructor. Qed.

Lemma raise_comms_scan_Permutation result :
  (raise_comms_scan g result).1 ++ (raise_comms_scan g result).2 ≡ₚ result.
Proof.
  unfold raise_comms_scan.
  destruct (raise_comms_fold_inv (reverse result) ([], [])) as [Hperm _].
  rewrite Hperm. simpl. rewrite app_nil_r. apply reverse_Permutation.
Qed.

(** When [raise_comms] returns, it returns a rearrangement of its input. *)
Lemma raise_comms_Permutation result out :
  raise_comms g result = Ok out → out ≡ₚ result.
Proof.
  unfold raise_comms.
  pose proof (raise_comms_scan_Permutation result) as Hperm.
  destruct (raise_comms_scan g result) as [cur_comms new_result].
  simpl in Hperm. case_bool_decide; [|discriminate].
  intros [= <-]. rewrite reverse_Permutation.
  unfold tuple_sorted. rewrite py_sorted_Permutation.
  rewrite <- Hperm. apply Permutation_app_comm.
Qed.
End raise_comms_facts.

(** C4 (Scenario C).  On [WAIT; X; D], where [D] is the only user of the
    wait and [X] is unrelated, the specification expects [X; WAIT; D].
    [sink_waits] instead raises UnboundLocalError: line 33 appends the
    unbound local [node] where the loop variable is [snode]. *)
Theorem sink_waits_scenario_C_unbound :
  sink_waits scenario_C ["WAIT"; "X"; "D"] = Raise UnboundLocalError.
Proof. vm_compute. reflexivity. Qed.

(** C6.  After the reverse scan the pending nodes are communication nodes;
    [raise_comms] returns a sequence exactly when at most one of them is
    pending, and fails with AssertionError exactly when more than one is. *)
Theorem raise_comms_pending_assert (g : graph) (result : list Node) :
  let pending := (raise_comms_scan g result).1 in
  Forall (λ c, is_comm g c = true) pending ∧
  (raise_comms g result = Raise AssertionError ↔ (1 < length pending)%nat) ∧
  ((∃ out, raise_comms g result = Ok out) ↔ (length pending ≤ 1)%nat).
Proof.
  intros pending. split; [apply raise_comms_scan_pending|].
  subst pending. unfold raise_comms.
  destruct (raise_comms_scan g result) as [cur_comms new_result]. simpl.
  case_bool_decide as Hlen.
  - split; split.
    + discriminate.
    + lia.
    + done.
    + eauto.
  - split; split.
    + lia.
    + done.
    + intros [out [=]].
    + lia.
Qed.

(** Two pending communication nodes: the assertion of line 54 fails. *)
Example raise_comms_two_pending :
  raise_comms_scan two_comms ["C1"; "C2"] = (["C2"; "C1"], []) ∧
  raise_comms two_comms ["C1"; "C2"] = Raise AssertionError.
Proof. split; vm_compute; reflexivity. Qed.

(** One pending communication node is flushed at the end. *)
Example raise_comms_one_pending :
  raise_comms scenario_C ["X"; "D"] = Ok ["X"; "D"] ∧
  raise_comms two_comms ["C1"] = Ok ["C1"].
Proof. split; vm_compute; reflexivity. Qed.

(** ** [dumb_reordering] *)

Section dumb_reordering_facts.
Variable g : graph.

Lemma filter_idemp {A} (p : A → bool) l :
  List.filter p (List.filter p l) = List.filter p l.
Proof.
  induction l as [|x l IH]; simpl; [done|].
  destruct (p x) eqn:Hp; simpl; [|done]. by rewrite Hp, IH.
Qed.

Lemma filter_length_le {A} (p : A → bool) l :
  (length (List.filter p l) ≤ length l)%nat.
Proof.
  induction l as [|x l IH]; simpl; [done|]. destruct (p x); simpl; lia.
Qed.

Lemma filter_length_lt {A} (p : A → bool) l x :
  x ∈ l → p x = false → (length (List.filter p l) < length l)%nat.
Proof.
  induction 1 as [x l|x y l _ IH]; intros Hp; simpl.
  - rewrite Hp. pose proof (filter_length_le p l). lia.
  - specialize (IH Hp). destruct (p y); simpl; lia.
Qed.

Lemma size_list_to_set_le (l : list Node) :
  (size (list_to_set l : gset Node) ≤ length l)%nat.
Proof.
  induction l as [|x l IH].
  - rewrite list_to_set_nil, size_empty. done.
  - rewrite list_to_set_cons, size_union_alt, size_singleton. simpl.
    assert (size ((list_to_set l : gset Node) ∖ {[x]})
            ≤ size (list_to_set l : gset Node))%nat as Hsub.
    { apply subseteq_size. set_solver. }
    lia.
Qed.

Lemma sink_waits_length result out :
  sink_waits g result = Ok out → (length out ≤ length result)%nat.
Proof.
  destruct (forallb (is_wait g) result) eqn:Hall.
  - rewrite sink_waits_all_waits by done. intros [= <-].
    rewrite tuple_sorted_length. apply size_list_to_set_le.
  - by rewrite sink_waits_not_all_waits.
Qed.

Lemma fusion_snodes_length nodes out :
  fusion_snodes g nodes = Ok out → length out = length nodes.
Proof.
  revert out. induction nodes as [|x nodes IH]; intros out; simpl.
  - by intros [= <-].
  - destruct (meta g x !! "fusion_meta"); [|discriminate].
    destruct (fusion_snodes g nodes) as [out'| |]; simpl; try discriminate.
    intros [= <-]. simpl. by rewrite (IH out').
Qed.

Lemma dumb_reordering_length nodes out :
  dumb_reordering g nodes = Ok out →
  (length out ≤ length (List.filter (has_fusion_meta g) nodes))%nat.
Proof.
  unfold dumb_reordering.
  destruct (sink_waits g _) as [l1| |] eqn:Hsink; simpl; try discriminate.
  destruct (raise_comms g l1) as [l2| |] eqn:Hraise; simpl; try discriminate.
  intros Hout. apply fusion_snodes_length in Hout.
  apply raise_comms_Permutation in Hraise.
  apply sink_waits_length in Hsink.
  rewrite Hout, Hraise. done.
Qed.
End dumb_reordering_facts.

(** C10.  [dumb_reordering] first discards the nodes without a
    "fusion_meta" entry: its outcome is the one on the filtered input, so a
    discarded node is neither scheduled nor reported; and when the input
    holds such a node, an output is shorter than the input, hence not a
    permutation of it. *)
Theorem dumb_reordering_drops_unfused (g : graph) (nodes : list Node) (node : Node) :
  node ∈ nodes →
  has_fusion_meta g node = false →
  dumb_reordering g nodes
    = dumb_reordering g (List.filter (has_fusion_meta g) nodes) ∧
  ∀ out, dumb_reordering g nodes = Ok out →
         (length out < length nodes)%nat ∧ ¬ out ≡ₚ nodes.
Proof.
  intros Hin Hmeta. split.
  - unfold dumb_reordering. by rewrite filter_idemp.
  - intros out Hout. apply dumb_reordering_length in Hout.
    pose proof (filter_length_lt _ _ _ Hin Hmeta) as Hlt.
    split; [lia|]. intros Hperm. apply Permutation_length in Hperm. lia.
Qed.

(** The rule at work on [W; X], where [X] has no fusion metadata. *)
Lemma dumb_reordering_drops_unfused_witness :
  dumb_reordering one_unfused ["W"; "X"]
    = dumb_reordering one_unfused
        (List.filter (has_fusion_meta one_unfused) ["W"; "X"]) ∧
  ∀ out, dumb_reordering one_unfused ["W"; "X"] = Ok out →
         (length out < length ["W"; "X"])%nat ∧ ¬ out ≡ₚ ["W"; "X"].
Proof.
  apply (dumb_reordering_drops_unfused one_unfused ["W"; "X"] "X").
  - apply list_elem_of_further, list_elem_of_here.
  - vm_compute. reflexivity.
Defined.

(** The unfused [X] is dropped without an error. *)
Example dumb_reordering_one_unfused :
  dumb_reordering one_unfused ["W"; "X"] = Ok ["W_snode"].
Proof. vm_compute. reflexivity. Qed.

(** ** Reasoning about traced computations *)

Section monad_facts.
Context {A B : Type}.

Lemma bind_Ok (m : M A) (k : A → M B) tr tr' b :
  bind m k tr = (tr', Ok b) →
  ∃ tr1 a, m tr = (tr1, Ok a) ∧ k a tr1 = (tr', Ok b).
Proof.
  unfold bind. destruct (m tr) as [tr1 [a| |]]; try discriminate. eauto.
Qed.

Lemma bind_OutOfFuel (m : M A) (k : A → M B) tr tr' :
  m tr = (tr', OutOfFuel) → bind m k tr = (tr', OutOfFuel).
Proof. unfold bind. by intros ->. Qed.

Lemma ensures_bind (m : M A) (k : A → M B) (P : A → Prop) (Q : B → Prop) :
  ensures m P → (∀ a, P a → ensures (k a) Q) → ensures (bind m k) Q.
Proof.
  intros Hm Hk tr tr' b Hb.
  apply bind_Ok in Hb as (tr1 & a & Ha & Hb). eapply Hk; eauto.
Qed.

End monad_facts.

Lemma ensures_ret {A} (a : A) (Q : A → Prop) : Q a → ensures (ret a) Q.
Proof. intros HQ tr tr' a' [= _ <-]. done. Qed.

Lemma ensures_weaken {A} (m : M A) (P Q : A → Prop) :
  ensures m P → (∀ a, P a → Q a) → ensures m Q.
Proof. intros Hm HPQ tr tr' a Ha. eauto. Qed.

Lemma ensures_for_each {A B} (l : list B) (a : A) (body : A → B → M A)
    (I : A → Prop) :
  I a → (∀ a x, I a → ensures (body a x) I) → ensures (for_each l a body) I.
Proof.
  intros Ha Hbody. revert a Ha.
  induction l as [|x l IH]; intros a Ha; simpl.
  - by apply ensures_ret.
  - eapply ensures_bind; [by apply Hbody|]. intros a' Ha'. by apply IH.
Qed.

(** ** The scheduler: a stalled pass *)

Section stall.
Variable g : graph.
Variable environ : gmap string string.

(** A pass that meets no free node changes nothing and emits nothing. *)
Lemma add_all_pass_none_free l st all_nodes progress tr :
  (∀ x, x ∈ l → x ∉ free_nodes st) →
  for_each l (st, all_nodes, progress) (add_all_body g environ) tr
  = (tr, Ok (st, all_nodes, progress)).
Proof.
  induction l as [|x l IH]; intros Hfree; simpl; [done|].
  unfold bind. simpl. rewrite bool_decide_eq_false_2.
  - simpl. apply IH. intros y Hy. apply Hfree. by right.
  - apply Hfree. by left.
Qed.

(** When no node of the batch is free, every pass fails to progress; the
    loop calls [breakpoint()] and [print()] and tries again, for as long
    as it is run. *)
Lemma add_all_loop_stall fuel st all_nodes tr :
  (0 < size all_nodes)%nat →
  (∀ x, x ∈ all_nodes → x ∉ free_nodes st) →
  add_all_loop g environ fuel st all_nodes tr
  = (tr ++ mjoin (replicate fuel [EvBreakpoint; EvPrint]), OutOfFuel).
Proof.
  intros Hsize Hfree. revert tr.
  induction fuel as [|fuel IH]; intros tr; simpl.
  - rewrite bool_decide_eq_true_2 by done. by rewrite app_nil_r.
  - rewrite bool_decide_eq_true_2 by done.
    unfold bind at 1. unfold add_all_pass.
    rewrite add_all_pass_none_free.
    + simpl. unfold bind. simpl. rewrite IH.
      by rewrite <- !app_assoc.
    + intros x Hx. apply Hfree.
      apply (proj1 (tuple_sorted_elem_of _ _)) in Hx.
      by apply (proj1 (elem_of_elements _ _)) in Hx.
Qed.

Lemma add_all_nodes_stall fuel st snodes tr :
  snodes ≠ [] →
  (∀ x, x ∈ snodes → x ∈ unused_nodes st ∧ x ∉ free_nodes st) →
  add_all_nodes g environ fuel st snodes tr
  = (tr ++ mjoin (replicate fuel [EvBreakpoint; EvPrint]), OutOfFuel).
Proof.
  intros Hne Hbatch. unfold add_all_nodes.
  unfold bind. unfold py_assert.
  assert (forallb (λ node, bool_decide (node ∈ unused_nodes st))
            (elements (list_to_set snodes : gset Node)) = true) as ->.
  { apply forallb_forall. intros x Hx. apply bool_decide_eq_true_2.
    apply (proj2 (list_elem_of_In _ _)) in Hx.
    apply (proj1 (elem_of_elements _ _)) in Hx.
    apply (proj1 (elem_of_list_to_set _ _)) in Hx.
    by apply Hbatch. }
  simpl. apply add_all_loop_stall.
  - destruct snodes as [|x snodes]; [done|].
    assert (size (list_to_set (x :: snodes) : gset Node) ≠ 0)%nat; [|lia].
    apply size_non_empty_iff. set_solver.
  - intros x Hx. apply (proj1 (elem_of_list_to_set _ _)) in Hx.
    by apply Hbatch.
Qed.
End stall.

(** ** The scheduler: a stall in the first batch *)

Section first_batch.
Variable g : graph.
Variable environ : gmap string string.

(** If none of the first communication node and its ancestors is free,
    the first call of [add_all_nodes] never returns. *)
Lemma reorder_first_batch_stall fuel snodes tr c0 rest ca cd anc0 :
  List.filter (is_comm g) snodes = c0 :: rest →
  comm_dict (get_ancestors g fuel) (c0 :: rest) ∅ = Ok ca →
  comm_dict (get_descendants g fuel) (c0 :: rest) ∅ = Ok cd →
  ca !! c0 = Some anc0 →
  forallb (λ x, bool_decide (x ∈ (list_to_set snodes : gset Node))
                && negb (bool_decide (init_indeg g snodes !! x = Some 0)))
          (elements anc0 ++ [c0]) = true →
  reorder_computation_for_overlap g environ fuel snodes tr
  = (tr ++ EvBreakpoint :: mjoin (replicate fuel [EvBreakpoint; EvPrint]),
     OutOfFuel).
Proof.
  intros Hcomm Hanc Hdesc Hc0 Hbatch.
  unfold reorder_computation_for_overlap. rewrite Hcomm. simpl.
  apply bind_OutOfFuel. unfold overlap_schedule.
  rewrite Hanc, Hdesc. unfold bind at 1, lift at 1.
  unfold bind at 1, lift at 1. unfold bind at 1, breakpoint, emit.
  unfold bind at 1, list_get. simpl. unfold bind at 1, dict_get.
  rewrite Hc0. simpl. apply bind_OutOfFuel.
  rewrite add_all_nodes_stall.
  - by rewrite <- app_assoc.
  - by destruct (elements anc0).
  - intros x Hx. simpl.
    rewrite forallb_forall in Hbatch.
    apply list_elem_of_In, Hbatch, andb_prop in Hx as [Hin Hfree].
    apply bool_decide_eq_true_1 in Hin.
    apply negb_true_iff, bool_decide_eq_false_1 in Hfree.
    split; [done|]. intros Hx.
    apply elem_of_list_to_set, list_elem_of_In, filter_In in Hx as [_ Hx].
    by apply bool_decide_eq_true_1 in Hx.
Qed.
End first_batch.

(** On the cyclic graph neither [A] nor [C] ever becomes free: with fuel
    [3 + n] the first batch makes that many passes, each ending in
    [breakpoint()] and [print()]. *)
Lemma cyclic_first_batch_stalls (environ : gmap string string) (n : nat) :
  reorder_computation_for_overlap cyclic environ (3 + n) ["A"; "C"] []
  = (EvBreakpoint :: mjoin (replicate (3 + n) [EvBreakpoint; EvPrint]),
     OutOfFuel).
Proof.
  apply (reorder_first_batch_stall cyclic environ (3 + n) ["A"; "C"] []
           "C" [] {["C" := {["A"; "C"]}]} {["C" := {["A"; "C"]}]} {["A"; "C"]}).
  - reflexivity.
  - destruct n; vm_compute; reflexivity.
  - destruct n; vm_compute; reflexivity.
  - vm_compute. reflexivity.
  - vm_compute. reflexivity.
Qed.

(** C7.  The specification asks that a stalled batch aborts with a fatal
    failure.  On the cyclic graph the code does not: whatever the fuel, the
    run ends neither in a result nor in an exception, and with fuel [3 + n]
    the loop of [add_all_nodes] has made that many passes, calling
    [breakpoint()] and [print()] after each, and is still looping. *)
Theorem reorder_stall_never_aborts (environ : gmap string string) (fuel : nat) :
  (reorder_computation_for_overlap cyclic environ fuel ["A"; "C"] []).2
    = OutOfFuel ∧
  (reorder_computation_for_overlap cyclic environ (3 + fuel) ["A"; "C"] []).1
    = EvBreakpoint :: mjoin (replicate (3 + fuel) [EvBreakpoint; EvPrint]).
Proof.
  split.
  - destruct fuel as [|[|[|n]]].
    + vm_compute. reflexivity.
    + vm_compute. reflexivity.
    + vm_compute. reflexivity.
    + change (S (S (S n))) with (3 + n)%nat.
      by rewrite (cyclic_first_batch_stalls environ n).
  - by rewrite cyclic_first_batch_stalls.
Qed.

(** ** The scheduler: [result] is append-only *)

Lemma ret_Ok {A} (a a' : A) tr tr' : ret a tr = (tr', Ok a') → a' = a.
Proof. by intros [= _ <-]. Qed.

Lemma release_user_result st user :
  result (release_user st user) = result st.
Proof. unfold release_user. by destruct (indeg st !! user). Qed.

Lemma foldl_release_user_result users st :
  result (foldl release_user st users) = result st.
Proof.
  revert st. induction users as [|u users IH]; intros st; simpl; [done|].
  by rewrite IH, release_user_result.
Qed.

Section append_only.
Variable g : graph.
Variable environ : gmap string string.

Lemma add_node_result st node :
  ensures (add_node g environ st node)
          (λ st', result st' = result st ++ [node]).
Proof.
  intros tr tr' st' Hrun. unfold add_node in Hrun.
  apply bind_Ok in Hrun as (tr1 & [] & _ & Hrun).
  apply bind_Ok in Hrun as (tr2 & [] & _ & Hrun).
  apply bind_Ok in Hrun as (tr3 & [] & _ & Hrun).
  apply ret_Ok in Hrun as ->. by rewrite foldl_release_user_result.
Qed.

Lemma add_all_body_inv st0 all0 acc node :
  batch_inv st0 all0 acc →
  ensures (add_all_body g environ acc node) (batch_inv st0 all0).
Proof.
  destruct acc as [[st all_nodes] progress]. intros [Hpre Hleft].
  unfold add_all_body. case_bool_decide.
  - eapply ensures_bind; [apply add_node_result|].
    intros st' Hres. apply ensures_ret. split; simpl in *.
    + rewrite Hres. by apply prefix_app_r.
    + intros x Hx Hnot. rewrite Hres. apply elem_of_app.
      destruct (decide (x = node)) as [->|Hne].
      * right. by left.
      * left. apply Hleft; [done|]. set_solver.
  - by apply ensures_ret.
Qed.

Lemma add_all_loop_result fuel st all_nodes :
  ensures (add_all_loop g environ fuel st all_nodes)
          (λ st', result st `prefix_of` result st' ∧
                  ∀ x, x ∈ all_nodes → x ∈ result st').
Proof.
  revert st all_nodes.
  induction fuel as [|fuel IH]; intros st all_nodes; simpl.
  - case_bool_decide as Hsize.
    + by intros tr tr' a [=].
    + apply ensures_ret. split; [done|]. intros x Hx.
      exfalso. apply Hsize.
      assert (size all_nodes ≠ 0)%nat; [|lia].
      apply size_non_empty_iff. set_solver.
  - case_bool_decide as Hsize.
    + eapply ensures_bind.
      * apply (ensures_for_each _ _ _ (batch_inv st all_nodes)).
        -- split; simpl; [done|]. by intros x Hx [].
        -- intros acc x. apply add_all_body_inv.
      * intros [[st1 all1] progress] [Hpre Hleft]. simpl in *.
        eapply ensures_bind with (P := λ _, True); [by intros ????|].
        intros _ _. eapply ensures_weaken; [apply IH|].
        intros st' [Hpre' Hall]. split; [by etrans|].
        intros x Hx. destruct (decide (x ∈ all1)) as [Hin|Hout]; [by apply Hall|].
        eapply elem_of_prefix; [|exact Hpre']. by apply Hleft.
    + apply ensures_ret. split; [done|]. intros x Hx.
      exfalso. apply Hsize.
      assert (size all_nodes ≠ 0)%nat; [|lia].
      apply size_non_empty_iff. set_solver.
Qed.

Lemma add_all_nodes_result fuel st snodes :
  ensures (add_all_nodes g environ fuel st snodes)
          (λ st', result st `prefix_of` result st' ∧
                  ∀ x, x ∈ snodes → x ∈ result st').
Proof.
  unfold add_all_nodes.
  eapply ensures_bind with (P := λ _, True); [by intros ????|].
  intros _ _. eapply ensures_weaken; [apply add_all_loop_result|].
  intros st' [Hpre Hall]. split; [done|].
  intros x Hx. apply Hall. by apply elem_of_list_to_set.
Qed.

Lemma priority2_loop_result comm_cost overlappable_nodes st total_cost :
  ensures (priority2_loop g environ comm_cost overlappable_nodes st total_cost)
          (λ r, result st `prefix_of` result r.1 ∧
                ∀ x, x ∈ result r.1 → x ∈ result st ∨ x ∈ overlappable_nodes).
Proof.
  revert st total_cost.
  induction overlappable_nodes as [|snode rest IH]; intros st total_cost; simpl.
  - apply ensures_ret. simpl. auto.
  - destruct (Qle_bool comm_cost total_cost).
    { apply ensures_ret. simpl. auto. }
    destruct (is_comm g snode); simpl.
    { eapply ensures_weaken; [apply IH|].
      intros r [Hpre Hfrom]. split; [done|].
      intros x Hx. destruct (Hfrom x Hx); [by left|right; by right]. }
    destruct (Qle_bool _ _).
    { eapply ensures_weaken; [apply IH|].
      intros r [Hpre Hfrom]. split; [done|].
      intros x Hx. destruct (Hfrom x Hx); [by left|right; by right]. }
    eapply ensures_bind; [apply add_node_result|].
    intros st1 Hres. eapply ensures_weaken; [apply IH|].
    intros r [Hpre Hfrom]. rewrite Hres in Hpre, Hfrom. split.
    + etrans; [|exact Hpre]. by apply prefix_app_r.
    + intros x Hx. destruct (Hfrom x Hx) as [Hold|Hrest]; [|right; by right].
      apply elem_of_app in Hold as [Hold|Hnew]; [by left|].
      apply list_elem_of_singleton in Hnew as ->. right. by left.
Qed.
Lemma overlap_step_result fuel comm_nodes comm_ancestors comm_descendants acc idx :
  ensures (overlap_step g environ fuel comm_nodes comm_ancestors
             comm_descendants acc idx)
          (λ r, result acc.1 `prefix_of` result r.1).
Proof.
  destruct acc as [st rolled]. unfold overlap_step.
  eapply ensures_bind with (P := λ _, True); [by intros ????|]. intros prev _.
  eapply ensures_bind with (P := λ _, True); [by intros ????|]. intros desc_prev _.
  eapply ensures_bind with (P := λ _, True); [by intros ????|]. intros cur _.
  eapply ensures_bind with (P := λ _, True); [by intros ????|]. intros anc_cur _.
  eapply ensures_bind with (P := λ _, True); [by intros ????|]. intros _ _.
  eapply ensures_bind with (P := λ _, True); [by intros ????|]. intros _ _.
  eapply ensures_bind; [apply add_all_nodes_result|]. intros st1 [Hpre1 _].
  eapply ensures_bind with (P := λ _, True); [by intros ????|]. intros _ _.
  eapply ensures_bind with (P := λ r, result st1 `prefix_of` result r.1).
  { destruct (Qle_bool _ _); [by apply ensures_ret|].
    eapply ensures_weaken; [apply priority2_loop_result|]. by intros r []. }
  intros [st2 total_cost] Hpre2. simpl in Hpre2.
  eapply ensures_bind with (P := λ _, True); [by intros ????|]. intros _ _.
  eapply ensures_bind with (P := λ _, True); [by intros ????|]. intros _ _.
  eapply ensures_bind; [apply add_all_nodes_result|]. intros st3 [Hpre3 _].
  eapply ensures_bind with (P := λ _, True); [by intros ????|]. intros _ _.
  apply ensures_ret. simpl. by repeat (etrans; [eassumption|]).
Qed.

(** The first communication node is in the list that [overlap_schedule]
    hands to the cleanup passes. *)
Lemma overlap_schedule_first_comm fuel snodes c0 rest :
  ensures (overlap_schedule g environ fuel snodes (c0 :: rest))
          (λ result, c0 ∈ result).
Proof.
  unfold overlap_schedule.
  eapply ensures_bind with (P := λ _, True); [by intros ????|].
  intros comm_ancestors _.
  eapply ensures_bind with (P := λ _, True); [by intros ????|].
  intros comm_descendants _.
  eapply ensures_bind with (P := λ _, True); [by intros ????|]. intros _ _.
  eapply ensures_bind with (P := λ c, c = c0).
  { intros tr tr' c Hc. by apply ret_Ok in Hc. }
  intros ? ->.
  eapply ensures_bind with (P := λ _, True); [by intros ????|]. intros anc0 _.
  eapply ensures_bind; [apply add_all_nodes_result|]. intros st1 [_ Hbatch].
  assert (c0 ∈ result st1) as Hc0.
  { apply Hbatch. apply elem_of_app. right. by left. }
  eapply ensures_bind with (P := λ r, result st1 `prefix_of` result r.1).
  { apply (ensures_for_each _ _ _ (λ r, result st1 `prefix_of` result r.1)).
    - done.
    - intros acc idx Hacc. eapply ensures_weaken; [apply overlap_step_result|].
      intros r Hr. simpl in Hr. by etrans. }
  intros r Hpre.
  eapply ensures_bind; [apply add_all_nodes_result|]. intros st2 [Hpre2 _].
  apply ensures_ret.
  eapply elem_of_prefix; [|exact Hpre2]. by eapply elem_of_prefix.
Qed.

(** With a communication node in the input, [sink_waits] is handed a list
    that holds a node that is no wait, and raises: the function returns a
    sequence on no such input. *)
Lemma reorder_with_comm_no_result fuel snodes tr :
  List.filter (is_comm g) snodes ≠ [] →
  ∀ out, (reorder_computation_for_overlap g environ fuel snodes tr).2 ≠ Ok out.
Proof.
  intros Hcomm out. unfold reorder_computation_for_overlap.
  destruct (List.filter (is_comm g) snodes) as [|c0 rest] eqn:Hfilter; [done|].
  simpl. unfold bind at 1.
  destruct (overlap_schedule g environ fuel snodes (c0 :: rest) tr)
    as [tr1 [res| |]] eqn:Hsched; simpl; try done.
  apply overlap_schedule_first_comm in Hsched.
  assert (is_comm g c0 = true) as Hc0.
  { assert (In c0 (List.filter (is_comm g) snodes)) as Hin
      by (rewrite Hfilter; by left).
    by apply filter_In in Hin as [_ ?]. }
  rewrite sink_waits_not_all_waits.
  - by unfold bind, lift.
  - apply forallb_false_intro. exists c0. split; [done|].
    unfold is_comm in Hc0. unfold is_wait. by destruct (ir_node g c0).
Qed.
End append_only.

(** ** [decide_global_ordering_comms] *)

Section ordering_facts.
Variable g : graph.

Lemma add_mutation_dep_mono n d deps m d' :
  d' ∈ default [] (deps !! m) →
  d' ∈ default [] (add_mutation_dep n d deps !! m).
Proof.
  intros Hin. unfold add_mutation_dep.
  destruct (decide (n = m)) as [->|Hne].
  - rewrite lookup_insert_eq. simpl. apply elem_of_app. by left.
  - by rewrite lookup_insert_ne.
Qed.

Lemma add_mutation_dep_added n d deps :
  d ∈ default [] (add_mutation_dep n d deps !! n).
Proof.
  unfold add_mutation_dep. rewrite lookup_insert_eq. simpl.
  apply elem_of_app. right. by left.
Qed.

(** The loop of lines 95-96 over any list of indices. *)
Lemma ordering_fold_spec (comm_nodes : list Node) (idxs : list nat) deps :
  let step := λ (deps : gmap Node (list Dep)) (i : nat),
    match comm_nodes !! i, comm_nodes !! (i - 1)%nat with
    | Some cur, Some prev => add_mutation_dep cur (WeakDep prev) deps
    | _, _ => deps
    end in
  (∀ m d, d ∈ default [] (deps !! m) →
          d ∈ default [] (foldl step deps idxs !! m)) ∧
  (∀ i cur prev, i ∈ idxs → comm_nodes !! i = Some cur →
                 comm_nodes !! (i - 1)%nat = Some prev →
                 WeakDep prev ∈ default [] (foldl step deps idxs !! cur)) ∧
  (∀ m, m ∉ comm_nodes → foldl step deps idxs !! m = deps !! m).
Proof.
  intros step. revert deps.
  induction idxs as [|i idxs IH]; intros deps; simpl.
  - split; [done|]. split; [|done]. by intros i cur prev Hi%elem_of_nil.
  - destruct (IH (step deps i)) as (Hmono & Hadd & Hother).
    assert (∀ m d, d ∈ default [] (deps !! m) →
                   d ∈ default [] (step deps i !! m)) as Hstep.
    { intros m d Hd. unfold step.
      destruct (comm_nodes !! i), (comm_nodes !! (i - 1)%nat); try done.
      by apply add_mutation_dep_mono. }
    split; [|split].
    + intros m d Hd. by apply Hmono, Hstep.
    + intros j cur prev Hj Hcur Hprev.
      apply elem_of_cons in Hj as [->|Hj]; [|by eapply Hadd].
      apply Hmono. unfold step. rewrite Hcur, Hprev.
      apply add_mutation_dep_added.
    + intros m Hm. rewrite Hother by done. unfold step.
      destruct (comm_nodes !! i) as [cur|] eqn:Hcur; [|done].
      destruct (comm_nodes !! (i - 1)%nat); [|done].
      unfold add_mutation_dep. rewrite lookup_insert_ne; [done|].
      intros ->. apply Hm. by eapply list_elem_of_lookup_2.
Qed.

(** Every communication node but the first receives a synthetic dependency
    on the communication node before it; dependencies are only added; and
    the dependencies of the other nodes are left as they are. *)
Lemma decide_global_ordering_comms_spec nodes deps :
  let comm_nodes := List.filter (is_comm g) nodes in
  let deps' := decide_global_ordering_comms g nodes deps in
  (∀ i cur prev, comm_nodes !! S i = Some cur → comm_nodes !! i = Some prev →
                 WeakDep prev ∈ default [] (deps' !! cur)) ∧
  (∀ m d, d ∈ default [] (deps !! m) → d ∈ default [] (deps' !! m)) ∧
  (∀ m, is_comm g m = false → deps' !! m = deps !! m).
Proof.
  intros comm_nodes deps'. subst deps'. unfold decide_global_ordering_comms.
  fold comm_nodes.
  destruct (ordering_fold_spec comm_nodes (seq 1 (length comm_nodes - 1)) deps)
    as (Hmono & Hadd & Hother).
  split; [|split].
  - intros i cur prev Hcur Hprev. apply (Hadd (S i)).
    + apply elem_of_seq. apply lookup_lt_Some in Hcur. lia.
    + done.
    + simpl. by rewrite Nat.sub_0_r.
  - done.
  - intros m Hm. apply Hother. intros Hin.
    apply list_elem_of_In, filter_In in Hin as [_ Hin]. congruence.
Qed.
End ordering_facts.

(** ** [reorder_computation_for_overlap]: inputs without communication *)

Section no_comm.
Variable g : graph.
Variable environ : gmap string string.

(** Lines 132-133: the early return. *)
Lemma reorder_no_comm fuel snodes tr :
  List.filter (is_comm g) snodes = [] →
  reorder_computation_for_overlap g environ fuel snodes tr = (tr, Ok snodes).
Proof.
  intros Hcomm. unfold reorder_computation_for_overlap. by rewrite Hcomm.
Qed.
End no_comm.

(** C1 (Scenario A).  The scheduler builds [A; B; C], a permutation of the
    input as the specification asks, but the result never reaches the
    caller: the cleanup pass [sink_waits] raises UnboundLocalError at the
    first node that is not a wait. *)
Theorem reorder_scenario_A_raises :
  overlap_schedule scenario_A debug_off 10 ["A"; "B"; "C"] ["B"] []
    = ([EvBreakpoint], Ok ["A"; "B"; "C"]) ∧
  reorder_computation_for_overlap scenario_A debug_off 10 ["A"; "B"; "C"] []
    = ([EvBreakpoint], Raise UnboundLocalError).
Proof. split; vm_compute; reflexivity. Qed.

(** C2, as stated, fails on the early return: without communication nodes
    the input comes back as it is, here with [B] before the [A] it uses. *)
Lemma reorder_unordered_input_unsound :
  reorder_computation_for_overlap compute_only debug_off 10 ["B"; "A"] []
    = ([], Ok ["B"; "A"]) ∧
  ¬ dependency_sound compute_only ∅ ["B"; "A"].
Proof.
  split; [vm_compute; reflexivity|].
  intros Hsound.
  specialize (Hsound "A" "B" 1%nat 0%nat).
  assert (1 < 0)%nat; [|lia].
  apply Hsound; [|done|done]. left. simpl. by left.
Qed.

(** C2, amended.  For an input without communication nodes that lists [a]
    before [b] for every true or synthetic edge [a → b], a sequence is
    returned and it lists [a] before [b] for every such edge. *)
Theorem reorder_no_comm_dependency_sound (g : graph)
    (environ : gmap string string) (deps : gmap Node (list Dep))
    (fuel : nat) (snodes : list Node) (tr : list event) :
  List.filter (is_comm g) snodes = [] →
  dependency_sound g deps snodes →
  ∃ out, reorder_computation_for_overlap g environ fuel snodes tr = (tr, Ok out) ∧
         dependency_sound g deps out.
Proof.
  intros Hcomm Hsound. exists snodes. split; [|done].
  by apply reorder_no_comm.
Qed.

(** The amended rule on the ordered input [A; B]. *)
Lemma reorder_no_comm_dependency_sound_witness :
  ∃ out, reorder_computation_for_overlap compute_only debug_off 10 ["A"; "B"] []
           = ([], Ok out) ∧
         dependency_sound compute_only ∅ out.
Proof.
  apply (reorder_no_comm_dependency_sound compute_only debug_off ∅ 10 ["A"; "B"] []).
  - reflexivity.
  - intros a b i j [Huse|Hdep] Ha Hb.
    + destruct i as [|[|i]], j as [|[|j]]; simpl in *;
        try discriminate; try lia;
        injection Ha as <-; injection Hb as <-; simpl in Huse;
        repeat match goal with
               | H : _ ∈ [] |- _ => apply elem_of_nil in H; destruct H
               | H : _ ∈ _ :: _ |- _ => apply elem_of_cons in H as [?|?]
               end; discriminate.
    + rewrite lookup_empty in Hdep. simpl in Hdep.
      apply elem_of_nil in Hdep. destruct Hdep.
Defined.

(** C3.  [C1] and [C2] are communication nodes in that input order, and the
    enforcer adds the synthetic dependency of [C2] on [C1]; the scheduler
    builds [C1; X; C2]; but [sink_waits] raises UnboundLocalError and no
    sequence comes out of the pipeline. *)
Theorem reorder_two_comms_raises :
  decide_global_ordering_comms (comms_and_compute 1) ["C1"; "X"; "C2"] ∅ !! "C2"
    = Some [WeakDep "C1"] ∧
  overlap_schedule (comms_and_compute 1) debug_off 10 ["C1"; "X"; "C2"]
      ["C1"; "C2"] []
    = ([EvBreakpoint], Ok ["C1"; "X"; "C2"]) ∧
  reorder_computation_for_overlap (comms_and_compute 1) debug_off 10
      ["C1"; "X"; "C2"] []
    = ([EvBreakpoint], Raise UnboundLocalError).
Proof. repeat split; vm_compute; reflexivity. Qed.

(** C8, as stated, fails: an input without communication nodes comes back
    unchanged, and [X; B; A] lists [B] before the [A] it uses, so the
    returned order is not topologically valid. *)
Lemma reorder_no_comm_not_topological :
  reorder_computation_for_overlap compute_only debug_off 10 ["X"; "B"; "A"] []
    = ([], Ok ["X"; "B"; "A"]) ∧
  ¬ dependency_sound compute_only ∅ ["X"; "B"; "A"].
Proof.
  split; [vm_compute; reflexivity|].
  intros Hsound.
  specialize (Hsound "A" "B" 2%nat 1%nat).
  assert (2 < 1)%nat; [|lia].
  apply Hsound; [|done|done]. left. simpl. by left.
Qed.

(** C8, amended.  An input without communication nodes is returned
    unchanged: the output is the input, which is also its stable sort under
    any key on which all nodes tie, and it is topologically valid exactly
    when the input order is. *)
Theorem reorder_no_comm_unchanged (g : graph) (environ : gmap string string)
    (fuel : nat) (snodes : list Node) (tr : list event) :
  List.filter (is_comm g) snodes = [] →
  ∃ out, reorder_computation_for_overlap g environ fuel snodes tr = (tr, Ok out) ∧
         out = snodes ∧
         (∀ (K : Type) (key : Node → K) (leb : K → K → bool),
            (∀ x y, leb (key x) (key y) = true) →
            out = py_sorted key leb snodes) ∧
         (∀ deps, dependency_sound g deps out ↔ dependency_sound g deps snodes).
Proof.
  intros Hcomm. exists snodes. split; [by apply reorder_no_comm|].
  split; [done|]. split; [|done].
  intros K key leb Hties. by rewrite py_sorted_ties_total.
Qed.

(** The amended rule on [X; B; A]. *)
Lemma reorder_no_comm_unchanged_witness :
  ∃ out, reorder_computation_for_overlap compute_only debug_off 10
           ["X"; "B"; "A"] [] = ([], Ok out) ∧
         out = ["X"; "B"; "A"] ∧
         (∀ (K : Type) (key : Node → K) (leb : K → K → bool),
            (∀ x y, leb (key x) (key y) = true) →
            out = py_sorted key leb ["X"; "B"; "A"]) ∧
         (∀ deps, dependency_sound compute_only deps out
                  ↔ dependency_sound compute_only deps ["X"; "B"; "A"]).
Proof.
  apply (reorder_no_comm_unchanged compute_only debug_off 10 ["X"; "B"; "A"] []).
  reflexivity.
Defined.

(** ** Priority 2 *)

(** C5, as stated, fails in both directions.  With a gap of 10, the node of
    cost 1 cannot fill half of the gap and is taken all the same; the node
    of cost 30 can fill the whole gap and is skipped. *)
Lemma priority2_rule_is_half_of_node_cost :
  (∃ st' total',
     priority2_loop (comms_and_compute 1) debug_off 10 ["C2"; "X"]
       after_first_comm 0 [] = ([], Ok (st', total')) ∧
     result st' = ["C1"; "X"] ∧
     (get_runtime_snode (comms_and_compute 1) "X" < (10 - 0) / 2)%Q) ∧
  (∃ st' total',
     priority2_loop (comms_and_compute 30) debug_off 10 ["C2"; "X"]
       after_first_comm 0 [] = ([], Ok (st', total')) ∧
     result st' = ["C1"] ∧
     ((10 - 0) / 2 < get_runtime_snode (comms_and_compute 30) "X")%Q).
Proof.
  split.
  - eexists _, _. split; [vm_compute; reflexivity|]. split; [reflexivity|].
    vm_compute. reflexivity.
  - eexists _, _. split; [vm_compute; reflexivity|]. split; [reflexivity|].
    vm_compute. reflexivity.
Qed.

(** C5, amended.  While the accumulated cost is below the cost of the
    previous communication node, a candidate that is not a communication
    node is taken exactly when half of its cost is less than the remaining
    gap, and skipped exactly when the gap is at most half of its cost. *)
Theorem priority2_take_rule (g : graph) (environ : gmap string string)
    (comm_cost : Q) (snode : Node) (rest : list Node) (st : sched)
    (total_cost : Q) (tr tr' : list event) (r : sched * Q) :
  (total_cost < comm_cost)%Q →
  is_comm g snode = false →
  snode ∉ rest →
  snode ∉ result st →
  priority2_loop g environ comm_cost (snode :: rest) st total_cost tr
    = (tr', Ok r) →
  (snode ∈ result r.1
   ↔ (get_runtime_snode g snode / 2 < comm_cost - total_cost)%Q) ∧
  (snode ∉ result r.1
   ↔ (comm_cost - total_cost <= get_runtime_snode g snode / 2)%Q).
Proof.
  intros Hbelow Hcomm Hrest Hfresh Hrun. simpl in Hrun.
  assert (Qle_bool comm_cost total_cost = false) as Hlt.
  { apply not_true_is_false. intros Hle%Qle_bool_iff.
    by apply Qle_not_lt in Hle. }
  rewrite Hlt, Hcomm in Hrun. simpl in Hrun.
  destruct (Qle_bool (comm_cost - total_cost) (get_runtime_snode g snode / 2))
    eqn:Hskip.
  - apply Qle_bool_iff in Hskip.
    apply priority2_loop_result in Hrun as [_ Hfrom].
    assert (snode ∉ result r.1) as Hnot.
    { intros Hin. by destruct (Hfrom _ Hin). }
    split; split; try done.
    intros Hhalf. by apply Qle_not_lt in Hskip.
  - assert (get_runtime_snode g snode / 2 < comm_cost - total_cost)%Q as Hhalf.
    { apply Qnot_le_lt. intros Hle%Qle_bool_iff. congruence. }
    apply bind_Ok in Hrun as (tr1 & st1 & Hadd & Hrun).
    apply add_node_result in Hadd.
    apply priority2_loop_result in Hrun as [Hpre _].
    assert (snode ∈ result r.1) as Hin.
    { eapply elem_of_prefix; [|exact Hpre]. rewrite Hadd.
      apply elem_of_app. right. by left. }
    split; split; try done.
    intros Hle. by apply Qle_not_lt in Hle.
Qed.

(** The amended rule on the candidate [X] of cost 1 with a gap of 10. *)
Lemma priority2_take_rule_witness :
  ("X" ∈ result after_priority2
   ↔ (get_runtime_snode (comms_and_compute 1) "X" / 2 < 10 - 0)%Q) ∧
  ("X" ∉ result after_priority2
   ↔ (10 - 0 <= get_runtime_snode (comms_and_compute 1) "X" / 2)%Q).
Proof.
  apply (priority2_take_rule (comms_and_compute 1) debug_off 10 "X" []
           after_first_comm 0 [] [] (after_priority2, (0 + 1)%Q)).
  - reflexivity.
  - reflexivity.
  - apply not_elem_of_nil.
  - simpl. intros Hin. apply list_elem_of_singleton in Hin. discriminate.
  - vm_compute. reflexivity.
Defined.

(** ** The call of line 143 *)

Section trace_grows.
Variable g : graph.
Variable environ : gmap string string.

Lemma extends_ret {A} (a : A) : extends (ret a).
Proof. by intros tr. Qed.

Lemma extends_lift {A} (o : outcome A) : extends (lift o).
Proof. by intros tr. Qed.

Lemma extends_emit e : extends (emit e).
Proof. intros tr. simpl. by apply prefix_app_r. Qed.

Lemma extends_py_assert b : extends (py_assert b).
Proof. destruct b; [apply extends_ret|apply extends_lift]. Qed.

(** The trace that [m] leaves is kept by what follows it. *)
Lemma bind_trace_prefix {A B} (m : M A) (k : A → M B) tr :
  (∀ a, extends (k a)) → (m tr).1 `prefix_of` (bind m k tr).1.
Proof.
  intros Hk. unfold bind. destruct (m tr) as [tr1 [a| |]]; simpl; [|done|done].
  apply Hk.
Qed.

Lemma extends_bind {A B} (m : M A) (k : A → M B) :
  extends m → (∀ a, extends (k a)) → extends (bind m k).
Proof.
  intros Hm Hk tr. etrans; [apply Hm|]. by apply bind_trace_prefix.
Qed.

Lemma extends_for_each {A B} (l : list B) (a : A) (body : A → B → M A) :
  (∀ a x, extends (body a x)) → extends (for_each l a body).
Proof.
  intros Hbody. revert a. induction l as [|x l IH]; intros a; simpl.
  - apply extends_ret.
  - apply extends_bind; [apply Hbody|]. intros a'. apply IH.
Qed.

Lemma extends_debug_print s : extends (debug_print environ s).
Proof.
  unfold debug_print. case_bool_decide; [apply extends_emit|apply extends_ret].
Qed.

Lemma extends_add_node st node : extends (add_node g environ st node).
Proof.
  unfold add_node.
  apply extends_bind; [apply extends_py_assert|]. intros _.
  apply extends_bind; [apply extends_py_assert|]. intros _.
  apply extends_bind; [apply extends_debug_print|]. intros _.
  apply extends_ret.
Qed.

Lemma extends_add_all_nodes fuel st snodes :
  extends (add_all_nodes g environ fuel st snodes).
Proof.
  unfold add_all_nodes.
  apply extends_bind; [apply extends_py_assert|]. intros _.
  generalize (list_to_set snodes : gset Node). revert st.
  induction fuel as [|fuel IH]; intros st all_nodes; simpl.
  - case_bool_decide; [apply extends_lift|apply extends_ret].
  - case_bool_decide; [|apply extends_ret].
    apply extends_bind.
    { apply extends_for_each. intros [[st1 all1] progress] node.
      unfold add_all_body. case_bool_decide; [|apply extends_ret].
      apply extends_bind; [apply extends_add_node|]. intros st'.
      apply extends_ret. }
    intros [[st1 all1] progress].
    apply extends_bind; [|intros _; apply IH].
    destruct progress; simpl; [apply extends_ret|].
    apply extends_bind; [apply extends_emit|]. intros _. apply extends_emit.
Qed.

Lemma extends_priority2_loop comm_cost overlappable_nodes st total_cost :
  extends (priority2_loop g environ comm_cost overlappable_nodes st total_cost).
Proof.
  revert st total_cost.
  induction overlappable_nodes as [|snode rest IH]; intros st total_cost; simpl.
  - apply extends_ret.
  - destruct (Qle_bool comm_cost total_cost); [apply extends_ret|].
    destruct (negb (is_comm g snode)); [|apply IH].
    destruct (Qle_bool _ _); [apply IH|].
    apply extends_bind; [apply extends_add_node|]. intros st'. apply IH.
Qed.

Lemma extends_dict_get {V} (d : gmap Node V) k : extends (dict_get d k).
Proof.
  unfold dict_get. destruct (d !! k); [apply extends_ret|apply extends_lift].
Qed.

Lemma extends_list_get l i : extends (list_get l i).
Proof.
  unfold list_get. destruct (l !! i); [apply extends_ret|apply extends_lift].
Qed.

Lemma extends_overlap_step fuel comm_nodes comm_ancestors comm_descendants
    acc idx :
  extends (overlap_step g environ fuel comm_nodes comm_ancestors
             comm_descendants acc idx).
Proof.
  destruct acc as [st rolled]. unfold overlap_step.
  apply extends_bind; [apply extends_list_get|]. intros prev.
  apply extends_bind; [apply extends_dict_get|]. intros desc_prev.
  apply extends_bind; [apply extends_list_get|]. intros cur.
  apply extends_bind; [apply extends_dict_get|]. intros anc_cur.
  apply extends_bind; [apply extends_debug_print|]. intros _.
  apply extends_bind; [apply extends_debug_print|]. intros _.
  apply extends_bind; [apply extends_add_all_nodes|]. intros st1.
  apply extends_bind; [apply extends_debug_print|]. intros _.
  apply extends_bind.
  { destruct (Qle_bool _ _); [apply extends_ret|].
    apply extends_priority2_loop. }
  intros [st2 total_cost].
  apply extends_bind; [apply extends_debug_print|]. intros _.
  apply extends_bind; [apply extends_debug_print|]. intros _.
  apply extends_bind; [apply extends_add_all_nodes|]. intros st3.
  apply extends_bind; [apply extends_debug_print|]. intros _.
  apply extends_ret.
Qed.

(** Once the ancestor and descendant sets of the communication nodes are
    there, line 143 calls [breakpoint()]: on every input with a
    communication node, in every environment, before the first node is
    scheduled, and whatever the run does afterwards. *)
Lemma reorder_reaches_breakpoint fuel snodes tr :
  List.filter (is_comm g) snodes ≠ [] →
  (∃ comm_ancestors,
     comm_dict (get_ancestors g fuel) (List.filter (is_comm g) snodes) ∅
     = Ok comm_ancestors) →
  (∃ comm_descendants,
     comm_dict (get_descendants g fuel) (List.filter (is_comm g) snodes) ∅
     = Ok comm_descendants) →
  tr ++ [EvBreakpoint]
    `prefix_of` (reorder_computation_for_overlap g environ fuel snodes tr).1.
Proof.
  intros Hcomm [comm_ancestors Hanc] [comm_descendants Hdesc].
  unfold reorder_computation_for_overlap.
  rewrite bool_decide_eq_false_2
    by (by destruct (List.filter (is_comm g) snodes)).
  etrans; [|apply bind_trace_prefix].
  - unfold overlap_schedule. rewrite Hanc, Hdesc.
    unfold bind at 1, lift at 1. unfold bind at 1, lift at 1.
    unfold bind at 1, breakpoint, emit.
    apply extends_bind; [apply extends_list_get|]. intros c0.
    apply extends_bind; [apply extends_dict_get|]. intros anc0.
    apply extends_bind; [apply extends_add_all_nodes|]. intros st1.
    apply extends_bind.
    { apply extends_for_each. intros acc idx. apply extends_overlap_step. }
    intros r.
    apply extends_bind; [apply extends_add_all_nodes|]. intros st2.
    apply extends_ret.
  - intros res.
    apply extends_bind; [apply extends_lift|]. intros res1.
    apply extends_bind; [apply extends_lift|]. intros res2.
    apply extends_bind; [apply extends_emit|]. intros _.
    apply extends_ret.
Qed.
End trace_grows.

(** C9.  The specification says that the computation does not block,
    suspend or issue I/O.  On Scenario A line 143 calls [breakpoint()],
    the entry to the debugger, in every environment: the call is the first
    event of the run whatever [INDUCTOR_COMM_DEBUG] holds, and with the
    debug toggle off it is the only one. *)
Theorem reorder_breakpoint_unconditional (environ : gmap string string) :
  [EvBreakpoint]
    `prefix_of` (reorder_computation_for_overlap scenario_A environ 10
                   ["A"; "B"; "C"] []).1 ∧
  (reorder_computation_for_overlap scenario_A debug_off 10
     ["A"; "B"; "C"] []).1 = [EvBreakpoint].
Proof.
  split; [|vm_compute; reflexivity].
  apply (reorder_reaches_breakpoint scenario_A environ 10 ["A"; "B"; "C"] []).
  - discriminate.
  - eexists. vm_compute. reflexivity.
  - eexists. vm_compute. reflexivity.
Qed.

(** * Further properties of the passes *)

(** ** [tuple_sorted] *)

Section py_sorted_order.
Context {A K : Type} (key : A → K) (leb : K → K → bool).
Hypothesis leb_total : ∀ x y, leb x y = true ∨ leb y x = true.

Lemma insert_by_Sorted x l :
  Sorted (λ a b, leb (key a) (key b) = true) l →
  Sorted (λ a b, leb (key a) (key b) = true) (insert_by key leb x l).
Proof.
  induction 1 as [|y l Hsorted IH Hhd]; simpl.
  - repeat constructor.
  - destruct (leb (key x) (key y)) eqn:Hle.
    + constructor; [by constructor|]. by constructor.
    + constructor; [done|].
      assert (leb (key y) (key x) = true) as Hyx.
      { destruct (leb_total (key x) (key y)); congruence. }
      destruct Hhd as [|z l Hyz]; simpl.
      * by constructor.
      * destruct (leb (key x) (key z)); by constructor.
Qed.

Lemma py_sorted_Sorted l :
  Sorted (λ a b, leb (key a) (key b) = true) (py_sorted key leb l).
Proof.
  induction l as [|x l IH]; simpl; [constructor|]. by apply insert_by_Sorted.
Qed.
End py_sorted_order.

Lemma string_leb_trans (x y z : string) :
  String.leb x y = true → String.leb y z = true → String.leb x z = true.
Proof.
  intros Hxy%Is_true_true Hyz%Is_true_true. apply Is_true_true.
  change (String.le x z). by etrans.
Qed.

Lemma tuple_sorted_Sorted l :
  Sorted (λ a b : Node, String.leb a b = true) (tuple_sorted l).
Proof.
  unfold tuple_sorted.
  apply (py_sorted_Sorted (λ n : Node, n) String.leb).
  apply String.leb_total.
Qed.

(** X18.  [tuple_sorted] returns the elements of its argument, each as often
    as it occurs there, in ascending order of name. *)
Theorem tuple_sorted_sorts (x : list Node) :
  tuple_sorted x ≡ₚ x ∧
  Sorted (λ a b : Node, String.leb a b = true) (tuple_sorted x).
Proof.
  split; [apply py_sorted_Permutation|apply tuple_sorted_Sorted].
Qed.

(** X19.  The order in which a collection is iterated does not matter to
    [tuple_sorted]: two enumerations of the same elements give the same
    list (what the comment of line 12 asks of it for sets). *)
Theorem tuple_sorted_iteration_order (x y : list Node) :
  x ≡ₚ y → tuple_sorted x = tuple_sorted y.
Proof.
  intros Hperm.
  assert (Transitive (λ a b : Node, String.leb a b = true)) as Htrans
    by (intros a b c; apply string_leb_trans).
  assert (AntiSymm (=) (λ a b : Node, String.leb a b = true)) as Hanti
    by (intros a b; apply String.leb_antisym).
  apply (Sorted_unique (λ a b : Node, String.leb a b = true)).
  - apply tuple_sorted_Sorted.
  - apply tuple_sorted_Sorted.
  - unfold tuple_sorted. by rewrite !py_sorted_Permutation.
Qed.

(** Two enumerations of the set with the names [a], [b] and [c]. *)
Lemma tuple_sorted_iteration_order_witness :
  tuple_sorted ["b"; "a"; "c"] = tuple_sorted ["a"; "b"; "c"].
Proof.
  apply (tuple_sorted_iteration_order ["b"; "a"; "c"] ["a"; "b"; "c"]).
  apply perm_swap.
Defined.

(** ** [sink_waits], in full *)

(** X12.  What [sink_waits] does on every input: it raises
    UnboundLocalError exactly when the sequence holds a node that is not a
    wait, and on a sequence of waits only (the empty one included) it
    returns each distinct wait once, in ascending order of name. *)
Theorem sink_waits_outcome (g : graph) (result : list Node) :
  sink_waits g result
  = if forallb (is_wait g) result
    then Ok (tuple_sorted (elements (list_to_set result : gset Node)))
    else Raise UnboundLocalError.
Proof.
  destruct (forallb (is_wait g) result) eqn:Hall.
  - by apply sink_waits_all_waits.
  - by apply sink_waits_not_all_waits.
Qed.

(** ** [raise_comms]: what moves and what stays *)

Section raise_comms_order.
Variable g : graph.

Lemma filter_all {A} (p : A → bool) l :
  Forall (λ x, p x = true) l → List.filter p l = l.
Proof.
  induction 1 as [|x l Hx _ IH]; simpl; [done|]. by rewrite Hx, IH.
Qed.

Lemma filter_none {A} (p : A → bool) l :
  Forall (λ x, p x = true) l → List.filter (λ x, negb (p x)) l = [].
Proof.
  induction 1 as [|x l Hx _ IH]; simpl; [done|]. by rewrite Hx.
Qed.

Lemma filter_reverse {A} (p : A → bool) l :
  List.filter p (reverse l) = reverse (List.filter p l).
Proof.
  induction l as [|x l IH]; simpl; [done|].
  rewrite reverse_cons, List.filter_app, IH. simpl.
  destruct (p x); [by rewrite reverse_cons|by rewrite app_nil_r].
Qed.

(** The communication nodes seen so far are the pending ones and those
    already in [new_result], in scan order; the other nodes are in
    [new_result] in scan order. *)
Lemma raise_comms_fold_order l acc :
  Forall (λ c, is_comm g c = true) acc.1 →
  List.filter (is_comm g) (foldl (raise_comms_body g) acc l).2
    ++ (foldl (raise_comms_body g) acc l).1
  = List.filter (is_comm g) acc.2 ++ acc.1 ++ List.filter (is_comm g) l ∧
  List.filter (λ n, negb (is_comm g n)) (foldl (raise_comms_body g) acc l).2
  = List.filter (λ n, negb (is_comm g n)) acc.2
      ++ List.filter (λ n, negb (is_comm g n)) l.
Proof.
  revert acc. induction l as [|x l IH]; intros [cur new] Hcur; cbn [foldl].
  - simpl. by rewrite !app_nil_r.
  - destruct (raise_comms_body_inv g (cur, new) x) as [_ Hcur'].
    specialize (Hcur' Hcur).
    destruct (IH _ Hcur') as [IHc IHn]. rewrite IHc, IHn. clear IH IHc IHn Hcur'.
    unfold raise_comms_body. simpl in *. destruct (is_comm g x) eqn:Hx; simpl.
    + split; [by rewrite <- !app_assoc|done].
    + destruct (pop_comms_split g x cur new) as (popped & Hsplit & Hnew).
      destruct (pop_comms g x cur new) as [cur' new0]. simpl in *.
      subst new0. rewrite Hsplit in Hcur.
      apply Forall_app in Hcur as [Hpopped _].
      rewrite !List.filter_app. simpl. rewrite Hx. simpl.
      rewrite (filter_all _ _ Hpopped), (filter_none _ _ Hpopped).
      rewrite Hsplit. rewrite !app_nil_r. split.
      * by rewrite <- !app_assoc.
      * by rewrite <- !app_assoc.
Qed.

Lemma tuple_sorted_short l : (length l ≤ 1)%nat → tuple_sorted l = l.
Proof. destruct l as [|x [|y l]]; simpl; [done|done|lia]. Qed.

Lemma raise_comms_order result out :
  raise_comms g result = Ok out →
  List.filter (is_comm g) out = List.filter (is_comm g) result ∧
  List.filter (λ n, negb (is_comm g n)) out
  = List.filter (λ n, negb (is_comm g n)) result.
Proof.
  unfold raise_comms.
  pose proof (raise_comms_scan_pending g result) as Hpending.
  unfold raise_comms_scan in *.
  destruct (raise_comms_fold_order (reverse result) ([], [])) as [Hc Hn];
    [constructor|].
  destruct (foldl (raise_comms_body g) ([], []) (reverse result))
    as [cur new]. simpl in *.
  case_bool_decide as Hlen; [|discriminate]. intros [= <-].
  rewrite tuple_sorted_short by done.
  rewrite !filter_reverse, !List.filter_app.
  rewrite (filter_all _ _ Hpending), (filter_none _ _ Hpending).
  rewrite Hc, Hn, app_nil_r, !filter_reverse. by rewrite !reverse_involutive.
Qed.

(** No pending comm is popped at a node that no pending comm has among its
    [args]. *)
Lemma pop_comms_none snode cur_comms new_result :
  (∀ c, c ∈ cur_comms → snode ∉ args g c) →
  pop_comms g snode cur_comms new_result = (cur_comms, new_result).
Proof.
  intros Hargs. destruct cur_comms as [|c cur]; [done|].
  cbn [pop_comms].
  destruct (existsb _ (c :: cur)) eqn:Hex; [|done].
  apply existsb_exists in Hex as (c' & Hin & Harg).
  apply bool_decide_eq_true_1 in Harg.
  apply list_elem_of_In in Hin. by destruct (Hargs c' Hin).
Qed.

Lemma raise_comms_fold_independent l cur new :
  Forall (λ c, is_comm g c = true) cur →
  (∀ x c, x ∈ l → c ∈ cur ++ l → is_comm g c = true → x ∉ args g c) →
  foldl (raise_comms_body g) (cur, new) l
  = (cur ++ List.filter (is_comm g) l,
     new ++ List.filter (λ n, negb (is_comm g n)) l).
Proof.
  revert cur new. induction l as [|x l IH]; intros cur new Hcur Hindep; simpl.
  - by rewrite !app_nil_r.
  - destruct (is_comm g x) eqn:Hx; simpl.
    + rewrite IH; [by rewrite <- !app_assoc| |].
      * apply Forall_app. split; [done|]. by constructor.
      * intros y c Hy Hc. apply Hindep; [by right|].
        rewrite <- app_assoc in Hc. done.
    + rewrite pop_comms_none.
      * rewrite IH; [by rewrite <- !app_assoc|done|].
        intros y c Hy Hc. apply Hindep; [by right|].
        apply elem_of_app in Hc as [Hc|Hc]; apply elem_of_app;
          [by left|right; by right].
      * intros c Hc. apply Hindep; [by left| |].
        -- apply elem_of_app. by left.
        -- by apply (proj1 (Forall_forall _ _) Hcur).
Qed.
End raise_comms_order.

(** X9.  When [raise_comms] returns, its output is a rearrangement of the
    input in which the communication nodes keep their relative order and
    the other nodes keep theirs. *)
Theorem raise_comms_rearranges (g : graph) (result out : list Node) :
  raise_comms g result = Ok out →
  out ≡ₚ result ∧
  List.filter (is_comm g) out = List.filter (is_comm g) result ∧
  List.filter (λ n, negb (is_comm g n)) out
  = List.filter (λ n, negb (is_comm g n)) result.
Proof.
  intros Hout. split; [by eapply raise_comms_Permutation|].
  by apply raise_comms_order.
Qed.

(** [C1] is raised over the two occurrences of [X]. *)
Lemma raise_comms_rearranges_witness :
  ["C1"; "X"; "X"] ≡ₚ ["X"; "C1"; "X"] ∧
  List.filter (is_comm (comms_and_compute 1)) ["C1"; "X"; "X"]
  = List.filter (is_comm (comms_and_compute 1)) ["X"; "C1"; "X"] ∧
  List.filter (λ n, negb (is_comm (comms_and_compute 1) n)) ["C1"; "X"; "X"]
  = List.filter (λ n, negb (is_comm (comms_and_compute 1) n)) ["X"; "C1"; "X"].
Proof.
  apply (raise_comms_rearranges (comms_and_compute 1)
           ["X"; "C1"; "X"] ["C1"; "X"; "X"]).
  vm_compute. reflexivity.
Defined.

(** X10.  A sequence without communication nodes passes through
    [raise_comms] unchanged. *)
Theorem raise_comms_no_comm (g : graph) (result : list Node) :
  List.filter (is_comm g) result = [] →
  raise_comms g result = Ok result.
Proof.
  intros Hnone.
  assert (Forall (λ x, negb (is_comm g x) = true) result) as Hall.
  { apply Forall_forall. intros x Hx.
    destruct (is_comm g x) eqn:Hc; [|done].
    assert (In x (List.filter (is_comm g) result)) as Hin
      by (apply filter_In; split; [by apply list_elem_of_In|done]).
    rewrite Hnone in Hin. destruct Hin. }
  unfold raise_comms, raise_comms_scan.
  rewrite raise_comms_fold_independent.
  - simpl. rewrite filter_reverse, Hnone. simpl.
    rewrite filter_reverse, (filter_all _ _ Hall), app_nil_r.
    by rewrite reverse_involutive.
  - constructor.
  - intros x c _ Hc Hcomm. simpl in Hc. exfalso.
    apply (proj1 (elem_of_reverse _ _)) in Hc.
    apply (proj1 (Forall_forall _ _) Hall) in Hc. by rewrite Hcomm in Hc.
Qed.

(** No communication node in [A; B]. *)
Lemma raise_comms_no_comm_witness :
  raise_comms compute_only ["A"; "B"] = Ok ["A"; "B"].
Proof.
  apply (raise_comms_no_comm compute_only ["A"; "B"]). reflexivity.
Defined.

(** X11.  On a sequence in which no node is among the [args] of a
    communication node, nothing stops a communication node on its way up:
    with at most one of them, [raise_comms] puts it at the front and leaves
    the rest in order; with two or more, all of them are still pending at
    the end of the scan and the assertion of line 54 fails. *)
Theorem raise_comms_independent (g : graph) (result : list Node) :
  (∀ x c, x ∈ result → c ∈ result → is_comm g c = true → x ∉ args g c) →
  raise_comms g result
  = if bool_decide (length (List.filter (is_comm g) result) ≤ 1)%nat
    then Ok (List.filter (is_comm g) result
             ++ List.filter (λ n, negb (is_comm g n)) result)
    else Raise AssertionError.
Proof.
  intros Hindep. unfold raise_comms, raise_comms_scan.
  rewrite raise_comms_fold_independent.
  - simpl. rewrite !filter_reverse, length_reverse.
    case_bool_decide as Hlen; [|done].
    rewrite tuple_sorted_short by (by rewrite length_reverse).
    by rewrite reverse_app, !reverse_involutive.
  - constructor.
  - intros x c Hx Hc Hcomm. simpl in Hc.
    apply (proj1 (elem_of_reverse _ _)) in Hx.
    apply (proj1 (elem_of_reverse _ _)) in Hc. by apply Hindep.
Qed.

(** Two communication nodes without [args]: the assertion fails. *)
Lemma raise_comms_independent_witness :
  raise_comms two_comms ["C1"; "C2"]
  = if bool_decide (length (List.filter (is_comm two_comms) ["C1"; "C2"]) ≤ 1)%nat
    then Ok (List.filter (is_comm two_comms) ["C1"; "C2"]
             ++ List.filter (λ n, negb (is_comm two_comms n)) ["C1"; "C2"])
    else Raise AssertionError.
Proof.
  apply (raise_comms_independent two_comms ["C1"; "C2"]).
  intros x c _ _ _ Hx. simpl in Hx. by apply elem_of_nil in Hx.
Defined.

(** ** [decide_global_ordering_comms], exactly *)

Section ordering_exact.
Variable g : graph.

Lemma ordering_fold_exact (comm_nodes : list Node) (idxs : list nat) deps :
  NoDup comm_nodes → NoDup idxs →
  (∀ i, i ∈ idxs → (1 ≤ i < length comm_nodes)%nat) →
  let step := λ (deps : gmap Node (list Dep)) (i : nat),
    match comm_nodes !! i, comm_nodes !! (i - 1)%nat with
    | Some cur, Some prev => add_mutation_dep cur (WeakDep prev) deps
    | _, _ => deps
    end in
  (∀ i cur prev, i ∈ idxs → comm_nodes !! i = Some cur →
                 comm_nodes !! (i - 1)%nat = Some prev →
                 foldl step deps idxs !! cur
                 = Some (default [] (deps !! cur) ++ [WeakDep prev])) ∧
  (∀ m, (∀ i, i ∈ idxs → comm_nodes !! i ≠ Some m) →
        foldl step deps idxs !! m = deps !! m).
Proof.
  intros Hnodup Hidxs Hrange step. revert deps.
  induction idxs as [|i idxs IH]; intros deps.
  - split; [|done]. by intros i cur prev Hi%elem_of_nil.
  - apply NoDup_cons in Hidxs as [Hi Hidxs].
    destruct (IH Hidxs) with (deps := step deps i) as [Hadd Hother].
    { intros j Hj. apply Hrange. by right. }
    clear IH. cbn [foldl].
    destruct (Hrange i) as [Hi1 Hi2]; [by left|].
    destruct (lookup_lt_is_Some_2 comm_nodes i Hi2) as [ci Hci].
    destruct (lookup_lt_is_Some_2 comm_nodes (i - 1)) as [pi Hpi]; [lia|].
    assert (step deps i = add_mutation_dep ci (WeakDep pi) deps) as Hstep
      by (unfold step; by rewrite Hci, Hpi).
    split.
    + intros j cur prev Hj Hcur Hprev.
      apply elem_of_cons in Hj as [->|Hj].
      * rewrite Hother.
        -- rewrite Hstep. unfold add_mutation_dep.
           assert (cur = ci) as -> by congruence.
           assert (prev = pi) as -> by congruence.
           by rewrite lookup_insert_eq.
        -- intros k Hk Hkc. apply Hi.
           by rewrite <- (NoDup_lookup _ _ _ _ Hnodup Hkc Hcur).
      * rewrite (Hadd j cur prev) by done. rewrite Hstep.
        unfold add_mutation_dep. rewrite lookup_insert_ne; [done|].
        intros ->. apply Hi.
        by rewrite (NoDup_lookup _ _ _ _ Hnodup Hci Hcur).
    + intros m Hm. rewrite Hother.
      * rewrite Hstep. unfold add_mutation_dep.
        rewrite lookup_insert_ne; [done|].
        intros ->. by apply (Hm i); [left|].
      * intros j Hj. apply Hm. by right.
Qed.
End ordering_exact.

(** X14.  When the communication nodes of the input are pairwise distinct,
    [decide_global_ordering_comms] appends to each of them but the first
    exactly one dependency, the weak dependency on the communication node
    before it, and leaves the first communication node and every other
    node as they were. *)
Theorem decide_global_ordering_comms_exact (g : graph) (nodes : list Node)
    (deps : gmap Node (list Dep)) :
  NoDup (List.filter (is_comm g) nodes) →
  let comm_nodes := List.filter (is_comm g) nodes in
  let deps' := decide_global_ordering_comms g nodes deps in
  (∀ i cur prev, comm_nodes !! S i = Some cur → comm_nodes !! i = Some prev →
                 deps' !! cur = Some (default [] (deps !! cur) ++ [WeakDep prev])) ∧
  (∀ c0, comm_nodes !! 0%nat = Some c0 → deps' !! c0 = deps !! c0) ∧
  (∀ m, is_comm g m = false → deps' !! m = deps !! m).
Proof.
  intros Hnodup comm_nodes deps'. subst deps'.
  unfold decide_global_ordering_comms. fold comm_nodes.
  destruct (ordering_fold_exact comm_nodes (seq 1 (length comm_nodes - 1)) deps)
    as [Hadd Hother].
  - done.
  - apply NoDup_seq.
  - intros i Hi%elem_of_seq. lia.
  - split; [|split].
    + intros i cur prev Hcur Hprev. apply (Hadd (S i)).
      * apply elem_of_seq. apply lookup_lt_Some in Hcur. lia.
      * done.
      * simpl. by rewrite Nat.sub_0_r.
    + intros c0 Hc0. apply Hother.
      intros i Hi%elem_of_seq Hic.
      pose proof (NoDup_lookup _ _ _ _ Hnodup Hic Hc0). lia.
    + intros m Hm. apply Hother. intros i _ Hic.
      apply list_elem_of_lookup_2, list_elem_of_In, filter_In in Hic as [_ Hic].
      congruence.
Qed.

(** The enforcer on [C1; X; C2]. *)
Lemma decide_global_ordering_comms_exact_witness :
  (∀ i cur prev,
     List.filter (is_comm (comms_and_compute 1)) ["C1"; "X"; "C2"] !! S i
       = Some cur →
     List.filter (is_comm (comms_and_compute 1)) ["C1"; "X"; "C2"] !! i
       = Some prev →
     decide_global_ordering_comms (comms_and_compute 1) ["C1"; "X"; "C2"] ∅
       !! cur
     = Some (default [] ((∅ : gmap Node (list Dep)) !! cur) ++ [WeakDep prev])) ∧
  (∀ c0,
     List.filter (is_comm (comms_and_compute 1)) ["C1"; "X"; "C2"] !! 0%nat
       = Some c0 →
     decide_global_ordering_comms (comms_and_compute 1) ["C1"; "X"; "C2"] ∅
       !! c0
     = (∅ : gmap Node (list Dep)) !! c0) ∧
  (∀ m, is_comm (comms_and_compute 1) m = false →
        decide_global_ordering_comms (comms_and_compute 1) ["C1"; "X"; "C2"] ∅
          !! m
        = (∅ : gmap Node (list Dep)) !! m).
Proof.
  apply (decide_global_ordering_comms_exact (comms_and_compute 1)
           ["C1"; "X"; "C2"] ∅).
  simpl. apply NoDup_cons. split.
  - intros Hin. apply list_elem_of_singleton in Hin. discriminate.
  - apply NoDup_singleton.
Defined.

(** ** [dumb_reordering]: the lookups of line 107 *)

Section dumb_reordering_lookups.
Variable g : graph.

Lemma fusion_snodes_fused nodes :
  Forall (λ node, has_fusion_meta g node = true) nodes →
  ∃ out, fusion_snodes g nodes = Ok out ∧
         ∀ s, s ∈ out →
              ∃ node, node ∈ nodes ∧
                      meta g node !! "fusion_meta" = Some {| snode := s |}.
Proof.
  induction 1 as [|x nodes Hx _ (out & Hout & Hfrom)]; simpl.
  - exists []. split; [done|]. by intros s Hs%elem_of_nil.
  - unfold has_fusion_meta in Hx. apply bool_decide_eq_true_1 in Hx as [fm Hfm].
    rewrite Hfm, Hout. simpl. exists (snode fm :: out). split; [done|].
    intros s Hs. apply elem_of_cons in Hs as [->|Hs].
    + exists x. split; [by left|]. by destruct fm.
    + destruct (Hfrom s Hs) as (node & Hnode & Hmeta).
      exists node. split; [by right|done].
Qed.

Lemma raise_comms_outcomes result :
  raise_comms g result = Raise AssertionError ∨
  ∃ out, raise_comms g result = Ok out.
Proof.
  unfold raise_comms. destruct (raise_comms_scan g result) as [cur new].
  case_bool_decide; eauto.
Qed.
End dumb_reordering_lookups.

(** X13.  [dumb_reordering] never fails at the lookups of line 107: it ends
    in the UnboundLocalError of [sink_waits], in the AssertionError of
    [raise_comms], or in a list, and every element of that list is the
    [snode] recorded under "fusion_meta" for some node of the input. *)
Theorem dumb_reordering_outcomes (g : graph) (nodes : list Node) :
  dumb_reordering g nodes = Raise UnboundLocalError ∨
  dumb_reordering g nodes = Raise AssertionError ∨
  ∃ out, dumb_reordering g nodes = Ok out ∧
         ∀ s, s ∈ out →
              ∃ node, node ∈ nodes ∧
                      meta g node !! "fusion_meta" = Some {| snode := s |}.
Proof.
  unfold dumb_reordering.
  set (fused := List.filter (has_fusion_meta g) nodes).
  rewrite sink_waits_outcome.
  destruct (forallb (is_wait g) fused); [|by left]. simpl.
  set (waits := tuple_sorted (elements (list_to_set fused : gset Node))).
  destruct (raise_comms_outcomes g waits) as [->|[l2 Hl2]]; [right; by left|].
  rewrite Hl2. simpl. right. right.
  assert (∀ x, x ∈ l2 → x ∈ nodes ∧ has_fusion_meta g x = true) as Hl2in.
  { intros x Hx. apply raise_comms_Permutation in Hl2. rewrite Hl2 in Hx.
    apply (proj1 (tuple_sorted_elem_of _ _)) in Hx.
    apply (proj1 (elem_of_elements _ _)) in Hx.
    apply (proj1 (elem_of_list_to_set _ _)) in Hx.
    apply list_elem_of_In, filter_In in Hx as [Hx ?].
    split; [by apply list_elem_of_In|done]. }
  destruct (fusion_snodes_fused g l2) as (out & Hout & Hfrom).
  { apply Forall_forall. intros x Hx. by apply Hl2in. }
  exists out. split; [done|].
  intros s Hs. destruct (Hfrom s Hs) as (node & Hnode & Hmeta).
  exists node. split; [by apply Hl2in|done].
Qed.

(** ** Priority 2: what is taken and what it costs *)

Section priority2_accounting.
Variable g : graph.
Variable environ : gmap string string.

Lemma priority2_loop_taken comm_cost overlappable_nodes st total_cost :
  ensures (priority2_loop g environ comm_cost overlappable_nodes st total_cost)
    (λ r, ∃ taken,
       result r.1 = result st ++ taken ∧
       taken `sublist_of` overlappable_nodes ∧
       Forall (λ n, is_comm g n = false) taken ∧
       (r.2 == foldl (λ acc n, acc + get_runtime_snode g n) total_cost taken)%Q).
Proof.
  revert st total_cost.
  induction overlappable_nodes as [|snode rest IH]; intros st total_cost; simpl.
  - apply ensures_ret. exists []. simpl. rewrite app_nil_r.
    split; [done|]. split; [apply sublist_nil_l|].
    split; [constructor|reflexivity].
  - destruct (Qle_bool comm_cost total_cost).
    { apply ensures_ret. exists []. simpl. rewrite app_nil_r.
      split; [done|]. split; [apply sublist_nil_l|].
      split; [constructor|reflexivity]. }
    destruct (is_comm g snode) eqn:Hcomm; simpl.
    { eapply ensures_weaken; [apply IH|].
      intros r (taken & Hres & Hsub & Hnc & Hcost). exists taken.
      split; [done|]. split; [by apply sublist_cons|]. by split. }
    destruct (Qle_bool _ _).
    { eapply ensures_weaken; [apply IH|].
      intros r (taken & Hres & Hsub & Hnc & Hcost). exists taken.
      split; [done|]. split; [by apply sublist_cons|]. by split. }
    eapply ensures_bind; [apply add_node_result|].
    intros st1 Hst1. eapply ensures_weaken; [apply IH|].
    intros r (taken & Hres & Hsub & Hnc & Hcost). exists (snode :: taken).
    split; [rewrite Hres, Hst1; by rewrite <- app_assoc|].
    split; [by apply sublist_skip|].
    split; [by constructor|done].
Qed.
End priority2_accounting.

(** X15.  When the Priority 2 loop returns, the nodes it appended to
    [result] are candidates, in candidate order, none of them a
    communication node, and the cost it reports is the cost it started
    from plus the runtime of each node it took. *)
Theorem priority2_accounting (g : graph) (environ : gmap string string)
    (comm_cost : Q) (overlappable_nodes : list Node) (st : sched)
    (total_cost : Q) (tr tr' : list event) (r : sched * Q) :
  priority2_loop g environ comm_cost overlappable_nodes st total_cost tr
    = (tr', Ok r) →
  ∃ taken,
    result r.1 = result st ++ taken ∧
    taken `sublist_of` overlappable_nodes ∧
    Forall (λ n, is_comm g n = false) taken ∧
    (r.2 == foldl (λ acc n, acc + get_runtime_snode g n) total_cost taken)%Q.
Proof.
  intros Hrun.
  destruct (priority2_loop_taken g environ comm_cost overlappable_nodes st
              total_cost tr tr' r Hrun) as (taken & Hres & Hsub & Hnc & Hcost).
  exists taken. by repeat split.
Qed.

(** The candidates [C2; X] after [C1]: only [X] is taken. *)
Lemma priority2_accounting_witness :
  ∃ taken,
    result (after_priority2, (0 + 1)%Q).1 = result after_first_comm ++ taken ∧
    taken `sublist_of` ["C2"; "X"] ∧
    Forall (λ n, is_comm (comms_and_compute 1) n = false) taken ∧
    ((after_priority2, (0 + 1)%Q).2
     == foldl (λ acc n, acc + get_runtime_snode (comms_and_compute 1) n)
          0 taken)%Q.
Proof.
  apply (priority2_accounting (comms_and_compute 1) debug_off 10 ["C2"; "X"]
           after_first_comm 0 [] [] (after_priority2, (0 + 1)%Q)).
  vm_compute. reflexivity.
Defined.

(** ** [reorder_computation_for_overlap]: when a sequence is returned *)

(** X4.  [reorder_computation_for_overlap] returns a sequence exactly on
    the inputs without communication nodes, and the sequence is then the
    input itself; on every other input the run ends in an exception or
    does not end. *)
Theorem reorder_returns_iff_no_comm (g : graph) (environ : gmap string string)
    (fuel : nat) (snodes : list Node) (tr : list event) :
  ((∃ out, (reorder_computation_for_overlap g environ fuel snodes tr).2 = Ok out)
   ↔ List.filter (is_comm g) snodes = []) ∧
  (∀ out, (reorder_computation_for_overlap g environ fuel snodes tr).2 = Ok out →
          out = snodes).
Proof.
  destruct (List.filter (is_comm g) snodes) as [|c0 rest] eqn:Hcomm.
  - rewrite reorder_no_comm by done. simpl. split.
    + split; [done|]. eauto.
    + by intros out [= <-].
  - assert (List.filter (is_comm g) snodes ≠ []) as Hne by (by rewrite Hcomm).
    pose proof (reorder_with_comm_no_result g environ fuel snodes tr Hne) as Hno.
    split.
    + split; [|done]. intros [out Hout]. by destruct (Hno out).
    + intros out Hout. by destruct (Hno out).
Qed.

(** ** [add_all_nodes]: a batch without a free node *)

(** X16.  A batch of unused nodes none of which is free is never
    completed: for every amount of fuel, [add_all_nodes] makes that many
    passes, each followed by [breakpoint()] and [print()], schedules
    nothing and raises nothing. *)
Theorem add_all_nodes_stalled_batch (g : graph) (environ : gmap string string)
    (fuel : nat) (st : sched) (snodes : list Node) (tr : list event) :
  snodes ≠ [] →
  (∀ x, x ∈ snodes → x ∈ unused_nodes st ∧ x ∉ free_nodes st) →
  add_all_nodes g environ fuel st snodes tr
  = (tr ++ mjoin (replicate fuel [EvBreakpoint; EvPrint]), OutOfFuel).
Proof.
  intros Hne Hbatch. apply add_all_nodes_stall; [done|].
  intros x Hx. by apply Hbatch.
Qed.

(** [C2] is unused and not free in the pools after Priority 2 has taken
    [X], once [C2] is taken out of the free pool. *)
Lemma add_all_nodes_stalled_batch_witness :
  add_all_nodes (comms_and_compute 1) debug_off 2
    {| indeg := indeg after_priority2; free_nodes := ∅;
       unused_nodes := unused_nodes after_priority2;
       result := result after_priority2 |} ["C2"] []
  = ([] ++ mjoin (replicate 2 [EvBreakpoint; EvPrint]), OutOfFuel).
Proof.
  apply (add_all_nodes_stalled_batch (comms_and_compute 1) debug_off 2
           {| indeg := indeg after_priority2; free_nodes := ∅;
              unused_nodes := unused_nodes after_priority2;
              result := result after_priority2 |} ["C2"] []).
  - discriminate.
  - intros x Hx. apply list_elem_of_singleton in Hx as ->. simpl. split.
    + by apply elem_of_singleton.
    + apply not_elem_of_empty.
Defined.

(** ** [get_ancestors] and [get_descendants]: the breadth-first search *)

Section bfs_facts.
Variable edges : Node → list Node.

(** Lines 68-70, over the edges of one node. *)
Lemma bfs_visit_spec (l : list Node) (seen : gset Node) (new_nodes : list Node) :
  let r := foldl (λ '(seen, new_nodes) inp,
                    if bool_decide (inp ∈ seen)
                    then (seen, new_nodes)
                    else ({[inp]} ∪ seen, new_nodes ++ [inp]))
                 (seen, new_nodes) l in
  (∀ y, y ∈ r.1 ↔ y ∈ seen ∨ y ∈ l) ∧
  (∀ y, y ∈ r.2 ↔ y ∈ new_nodes ∨ (y ∈ r.1 ∧ y ∉ seen)).
Proof.
  revert seen new_nodes.
  induction l as [|inp l IH]; intros seen new_nodes; simpl.
  - split; intros y; set_solver.
  - case_bool_decide as Hin.
    + destruct (IH seen new_nodes) as [Hseen Hnew]. split; intros y.
      * rewrite Hseen. set_solver.
      * apply Hnew.
    + destruct (IH ({[inp]} ∪ seen) (new_nodes ++ [inp])) as [Hseen Hnew].
      split; intros y.
      * rewrite Hseen. set_solver.
      * rewrite Hnew, Hseen. rewrite elem_of_app, list_elem_of_singleton.
        rewrite !elem_of_union, !elem_of_singleton.
        destruct (decide (y = inp)) as [->|Hne]; naive_solver.
Qed.

Lemma bfs_round_spec (cur_nodes : list Node) (seen : gset Node) :
  (∀ y, y ∈ (bfs_round edges seen cur_nodes).1
        ↔ y ∈ seen ∨ ∃ x, x ∈ cur_nodes ∧ y ∈ edges x) ∧
  (∀ y, y ∈ (bfs_round edges seen cur_nodes).2
        ↔ y ∈ (bfs_round edges seen cur_nodes).1 ∧ y ∉ seen).
Proof.
  unfold bfs_round.
  assert (∀ acc : gset Node * list Node,
            let r := foldl (λ acc node,
                       foldl (λ '(seen, new_nodes) inp,
                                if bool_decide (inp ∈ seen)
                                then (seen, new_nodes)
                                else ({[inp]} ∪ seen, new_nodes ++ [inp]))
                             acc (edges node)) acc cur_nodes in
            (∀ y, y ∈ r.1 ↔ y ∈ acc.1 ∨ ∃ x, x ∈ cur_nodes ∧ y ∈ edges x) ∧
            (∀ y, y ∈ r.2 ↔ y ∈ acc.2 ∨ (y ∈ r.1 ∧ y ∉ acc.1))) as Hgen.
  { induction cur_nodes as [|x cur IH]; intros [seen0 new0]; simpl.
    - split; intros y; [|set_solver]. split; [by left|].
      intros [?|(x & Hx & _)]; [done|]. by apply elem_of_nil in Hx.
    - destruct (bfs_visit_spec (edges x) seen0 new0) as [Hs1 Hn1].
      simpl in Hs1, Hn1.
      destruct (foldl _ (seen0, new0) (edges x)) as [seen1 new1] eqn:Hvisit.
      destruct (IH (seen1, new1)) as [Hs2 Hn2]. simpl in *.
      split; intros y.
      + rewrite Hs2, Hs1. split.
        * intros [[?|?]|(z & Hz & Hy)]; [by left|right|right].
          -- exists x. split; [by left|done].
          -- exists z. split; [by right|done].
        * intros [?|(z & Hz & Hy)]; [by left; left|].
          apply elem_of_cons in Hz as [->|Hz]; [left; by right|].
          right. by exists z.
      + rewrite Hn2, Hn1. specialize (Hs1 y). specialize (Hs2 y).
        destruct (decide (y ∈ seen1)); tauto. }
  destruct (Hgen (seen, [])) as [Hs Hn]. simpl in *. split; [done|].
  intros y. rewrite Hn. split; [|tauto].
  intros [Hy%elem_of_nil|?]; [done|tauto].
Qed.

(** What the search has established when it enters a round: the nodes
    seen are reached from [root] in one step or more, the frontier is
    reached from [root], and the edges of every other node met so far
    have been followed. *)
Lemma bfs_loop_correct fuel (root : Node) (seen : gset Node)
    (cur_nodes : list Node) (s : gset Node) :
  (∀ y, y ∈ seen → tc (edge_step edges) root y) →
  (∀ x, x ∈ cur_nodes → rtc (edge_step edges) root x) →
  (∀ x y, x = root ∨ x ∈ seen → x ∉ cur_nodes → y ∈ edges x → y ∈ seen) →
  bfs_loop fuel edges seen cur_nodes = Ok s →
  ∀ y, y ∈ s ↔ tc (edge_step edges) root y.
Proof.
  revert seen cur_nodes.
  assert (∀ seen : gset Node,
            (∀ y, y ∈ seen → tc (edge_step edges) root y) →
            (∀ x y, x = root ∨ x ∈ seen → y ∈ edges x → y ∈ seen) →
            ∀ y, y ∈ seen ↔ tc (edge_step edges) root y) as Hdone.
  { intros seen Hsound Hclosed y. split; [apply Hsound|].
    assert (∀ x z, tc (edge_step edges) x z → x = root ∨ x ∈ seen → z ∈ seen)
      as Hgen.
    { intros x z Hxz. induction Hxz as [x z Hstep|x m z Hstep _ IH]; intros Hx.
      - exact (Hclosed x z Hx Hstep).
      - apply IH. right. exact (Hclosed x m Hx Hstep). }
    intros Hreach. apply (Hgen root y Hreach). by left. }
  induction fuel as [|fuel IH]; intros seen cur_nodes Hsound Hfront Hclosed.
  - destruct cur_nodes as [|x cur]; simpl; [|discriminate].
    intros [= <-]. apply Hdone; [done|].
    intros x y Hx. apply Hclosed; [done|]. apply not_elem_of_nil.
  - destruct cur_nodes as [|x0 cur]; cbn [bfs_loop].
    { intros [= <-]. apply Hdone; [done|].
      intros x y Hx. apply Hclosed; [done|]. apply not_elem_of_nil. }
    destruct (bfs_round_spec (x0 :: cur) seen) as [Hs Hn].
    destruct (bfs_round edges seen (x0 :: cur)) as [seen' new_nodes].
    simpl in Hs, Hn. apply IH.
    + intros y [Hy|(x & Hx & Hy)]%Hs; [by apply Hsound|].
      eapply tc_rtc_l; [by apply Hfront|]. by apply tc_once.
    + intros x [Hx _]%Hn. apply tc_rtc.
      apply Hs in Hx as [Hx|(z & Hz & Hx)]; [by apply Hsound|].
      eapply tc_rtc_l; [by apply Hfront|]. by apply tc_once.
    + intros x y Hx Hnotnew Hy. apply Hs.
      assert (x = root ∨ x ∈ seen) as Hx'.
      { destruct Hx as [->|Hx]; [by left|].
        destruct (decide (x ∈ seen)) as [|Hnot]; [by right|].
        destruct Hnotnew. by apply Hn. }
      destruct (decide (x ∈ x0 :: cur)) as [Hcur|Hnotcur].
      * right. by exists x.
      * left. by eapply Hclosed.
Qed.

(** Fuel for one round per node of a set that holds every node the search
    can meet is enough. *)
Lemma bfs_loop_terminates fuel (U seen : gset Node) (cur_nodes : list Node) :
  seen ⊆ U →
  (∀ x y, x ∈ cur_nodes → y ∈ edges x → y ∈ U) →
  (∀ x y, x ∈ U → y ∈ edges x → y ∈ U) →
  (size (U ∖ seen) < fuel)%nat →
  ∃ s, bfs_loop fuel edges seen cur_nodes = Ok s ∧ s ⊆ U.
Proof.
  revert seen cur_nodes.
  induction fuel as [|fuel IH]; intros seen cur_nodes Hseen Hcur HU Hfuel;
    [lia|].
  destruct cur_nodes as [|x0 cur]; cbn [bfs_loop]; [by exists seen|].
  destruct (bfs_round_spec (x0 :: cur) seen) as [Hs Hn].
  destruct (bfs_round edges seen (x0 :: cur)) as [seen' new_nodes].
  simpl in Hs, Hn.
  assert (seen' ⊆ U) as Hseen'.
  { intros y [Hy|(x & Hx & Hy)]%Hs; [by apply Hseen|]. by eapply Hcur. }
  destruct new_nodes as [|y0 new_nodes].
  { exists seen'. split; [by destruct fuel|done]. }
  apply IH; [done| |done|].
  - intros x y [Hx _]%Hn Hy. eapply HU; [|done]. by apply Hseen'.
  - assert (U ∖ seen' ⊂ U ∖ seen) as Hless.
    { split.
      - intros y [Hy Hnot]%elem_of_difference. apply elem_of_difference.
        split; [done|]. intros Hin. apply Hnot, Hs. by left.
      - intros Hsub. destruct (proj1 (Hn y0)) as [Hy0 Hnot]; [by left|].
        assert (y0 ∈ U ∖ seen') as [_ Habs]%elem_of_difference; [|done].
        apply Hsub, elem_of_difference. split; [by apply Hseen'|done]. }
    apply subset_size in Hless. lia.
Qed.
End bfs_facts.

(** X5.  When [get_ancestors] returns, it returns exactly the nodes
    reached from [node] by one or more [inverse_users] steps: the
    transitive predecessors, [node] itself among them only when it lies on
    a cycle. *)
Theorem get_ancestors_transitive (g : graph) (fuel : nat) (node : Node)
    (ancestors : gset Node) :
  get_ancestors g fuel node = Ok ancestors →
  ∀ x, x ∈ ancestors ↔ tc (edge_step (inverse_users g)) node x.
Proof.
  unfold get_ancestors. apply bfs_loop_correct.
  - by intros y Hy%not_elem_of_empty.
  - by intros x ->%list_elem_of_singleton.
  - intros x y [->|Hx%not_elem_of_empty] Hnot; [|done].
    destruct Hnot. by left.
Qed.

(** On the cycle between [A] and [C], both are ancestors of [C]. *)
Lemma get_ancestors_transitive_witness :
  get_ancestors cyclic 3 "C" = Ok {["A"; "C"]} ∧
  ∀ x, x ∈ ({["A"; "C"]} : gset Node)
       ↔ tc (edge_step (inverse_users cyclic)) "C" x.
Proof.
  split; [vm_compute; reflexivity|].
  apply (get_ancestors_transitive cyclic 3 "C" {["A"; "C"]}).
  vm_compute. reflexivity.
Defined.

(** X6.  When [get_descendants] returns, it returns exactly the nodes
    reached from [node] by one or more [node_users] steps. *)
Theorem get_descendants_transitive (g : graph) (fuel : nat) (node : Node)
    (descendants : gset Node) :
  get_descendants g fuel node = Ok descendants →
  ∀ x, x ∈ descendants ↔ tc (edge_step (node_users g)) node x.
Proof.
  unfold get_descendants. apply bfs_loop_correct.
  - by intros y Hy%not_elem_of_empty.
  - by intros x ->%list_elem_of_singleton.
  - intros x y [->|Hx%not_elem_of_empty] Hnot; [|done].
    destruct Hnot. by left.
Qed.

(** In Scenario A the descendants of [A] are [B] and [C]. *)
Lemma get_descendants_transitive_witness :
  get_descendants scenario_A 3 "A" = Ok {["B"; "C"]} ∧
  ∀ x, x ∈ ({["B"; "C"]} : gset Node)
       ↔ tc (edge_step (node_users scenario_A)) "A" x.
Proof.
  split; [vm_compute; reflexivity|].
  apply (get_descendants_transitive scenario_A 3 "A" {["B"; "C"]}).
  vm_compute. reflexivity.
Defined.

(** X7.  The search of [get_ancestors] ends, cycles or not: if a finite
    set [U] holds the predecessors of [node] and the predecessors of its
    own members, then more rounds than [U] has nodes are enough for
    [get_ancestors] to return, and what it returns lies in [U]. *)
Theorem get_ancestors_terminates (g : graph) (fuel : nat) (node : Node)
    (U : gset Node) :
  (∀ y, y ∈ inverse_users g node → y ∈ U) →
  (∀ x y, x ∈ U → y ∈ inverse_users g x → y ∈ U) →
  (size U < fuel)%nat →
  ∃ ancestors, get_ancestors g fuel node = Ok ancestors ∧ ancestors ⊆ U.
Proof.
  intros Hnode HU Hfuel. unfold get_ancestors.
  apply bfs_loop_terminates; [set_solver| |done|].
  - intros x y ->%list_elem_of_singleton. apply Hnode.
  - by rewrite difference_empty_L.
Qed.

(** The cycle between [A] and [C] stays within these two nodes. *)
Lemma get_ancestors_terminates_witness :
  ∃ ancestors, get_ancestors cyclic 3 "C" = Ok ancestors ∧
               ancestors ⊆ ({["A"; "C"]} : gset Node).
Proof.
  apply (get_ancestors_terminates cyclic 3 "C" {["A"; "C"]}).
  - intros y Hy. simpl in Hy. apply list_elem_of_singleton in Hy as ->.
    apply elem_of_union. left. by apply elem_of_singleton.
  - intros x y Hx Hy. simpl in Hy.
    destruct (String.eqb x "A"); [|destruct (String.eqb x "C")].
    + apply list_elem_of_singleton in Hy as ->.
      apply elem_of_union. right. by apply elem_of_singleton.
    + apply list_elem_of_singleton in Hy as ->.
      apply elem_of_union. left. by apply elem_of_singleton.
    + by apply elem_of_nil in Hy.
  - vm_compute. lia.
Defined.

(** X8.  The search of [get_descendants] ends in the same way: with a
    finite set [U] that holds the users of [node] and the users of its own
    members, more rounds than [U] has nodes are enough, and the result
    lies in [U]. *)
Theorem get_descendants_terminates (g : graph) (fuel : nat) (node : Node)
    (U : gset Node) :
  (∀ y, y ∈ node_users g node → y ∈ U) →
  (∀ x y, x ∈ U → y ∈ node_users g x → y ∈ U) →
  (size U < fuel)%nat →
  ∃ descendants, get_descendants g fuel node = Ok descendants ∧
                 descendants ⊆ U.
Proof.
  intros Hnode HU Hfuel. unfold get_descendants.
  apply bfs_loop_terminates; [set_solver| |done|].
  - intros x y ->%list_elem_of_singleton. apply Hnode.
  - by rewrite difference_empty_L.
Qed.

(** The users met from [A] in Scenario A are [B] and [C]. *)
Lemma get_descendants_terminates_witness :
  ∃ descendants, get_descendants scenario_A 3 "A" = Ok descendants ∧
                 descendants ⊆ ({["B"; "C"]} : gset Node).
Proof.
  apply (get_descendants_terminates scenario_A 3 "A" {["B"; "C"]}).
  - intros y Hy. simpl in Hy. apply list_elem_of_singleton in Hy as ->.
    apply elem_of_union. left. by apply elem_of_singleton.
  - intros x y Hx Hy. simpl in Hy.
    destruct (String.eqb x "A"); [|destruct (String.eqb x "B")].
    + apply list_elem_of_singleton in Hy as ->.
      apply elem_of_union. left. by apply elem_of_singleton.
    + apply list_elem_of_singleton in Hy as ->.
      apply elem_of_union. right. by apply elem_of_singleton.
    + by apply elem_of_nil in Hy.
  - vm_compute. lia.
Defined.

(** ** The scheduler: what the pools keep true *)

Section pools.
Variable g : graph.

Lemma count_user_lookup (m : gmap Node Z) u x :
  count_user m u !! x
  = (λ d, d + if bool_decide (x = u) then 1 else 0) <$> m !! x.
Proof.
  unfold count_user. case_bool_decide as Hx.
  - subst x. destruct (m !! u) as [d|] eqn:Hm.
    + by rewrite lookup_insert_eq.
    + by rewrite Hm.
  - destruct (m !! u) as [d|] eqn:Hm.
    + rewrite lookup_insert_ne by done. destruct (m !! x); simpl; f_equal; lia.
    + destruct (m !! x); simpl; f_equal; lia.
Qed.

Lemma count_occ_cons_Z (u x : Node) us :
  Z.of_nat (count_occ String.string_dec (u :: us) x)
  = (if bool_decide (x = u) then 1 else 0)
    + Z.of_nat (count_occ String.string_dec us x).
Proof.
  simpl. destruct (String.string_dec u x) as [->|Hne].
  - rewrite bool_decide_eq_true_2 by done. lia.
  - rewrite bool_decide_eq_false_2 by congruence. lia.
Qed.

Lemma foldl_count_user_lookup us (m : gmap Node Z) x :
  foldl count_user m us !! x
  = (λ d, d + Z.of_nat (count_occ String.string_dec us x)) <$> m !! x.
Proof.
  revert m. induction us as [|u us IH]; intros m.
  - simpl. destruct (m !! x); simpl; f_equal; lia.
  - cbn [foldl]. rewrite IH, count_user_lookup, count_occ_cons_Z.
    destruct (m !! x); simpl; f_equal; lia.
Qed.

Lemma pending_preds_nil snodes x :
  pending_preds g snodes [] x
  = sum_list_with (λ a, count_occ String.string_dec (node_users g a) x) snodes.
Proof.
  unfold pending_preds. induction snodes as [|a snodes IH]; [done|].
  cbn [sum_list_with]. rewrite IH.
  by rewrite bool_decide_eq_false_2 by apply not_elem_of_nil.
Qed.

Lemma init_indeg_fold_lookup l (m : gmap Node Z) x :
  foldl (λ indeg snode, foldl count_user indeg (node_users g snode)) m l !! x
  = (λ d, d + Z.of_nat
             (sum_list_with
                (λ a, count_occ String.string_dec (node_users g a) x) l))
    <$> m !! x.
Proof.
  revert m. induction l as [|a l IH]; intros m.
  - simpl. destruct (m !! x); simpl; f_equal; lia.
  - cbn [foldl]. rewrite IH, foldl_count_user_lookup. simpl.
    destruct (m !! x); simpl; f_equal; lia.
Qed.

Lemma zero_dict_lookup (snodes : list Node) x :
  (list_to_map ((λ k, (k, 0)) <$> snodes) : gmap Node Z) !! x
  = if bool_decide (x ∈ snodes) then Some 0 else None.
Proof.
  induction snodes as [|a snodes IH].
  - rewrite fmap_nil, list_to_map_nil, lookup_empty.
    case_bool_decide as Hx; [by apply elem_of_nil in Hx|done].
  - rewrite fmap_cons, list_to_map_cons. simpl.
    destruct (decide (x = a)) as [->|Hne].
    + rewrite lookup_insert_eq.
      by rewrite bool_decide_eq_true_2 by (by left).
    + rewrite lookup_insert_ne by done. rewrite IH.
      apply (f_equal (λ b : bool, if b then Some 0 else None)).
      apply bool_decide_ext. rewrite elem_of_cons. naive_solver.
Qed.

Lemma init_indeg_lookup snodes x :
  init_indeg g snodes !! x
  = if bool_decide (x ∈ snodes)
    then Some (Z.of_nat (pending_preds g snodes [] x))
    else None.
Proof.
  unfold init_indeg. rewrite init_indeg_fold_lookup, zero_dict_lookup.
  rewrite pending_preds_nil. by case_bool_decide.
Qed.

Lemma release_user_lookup st u x :
  indeg (release_user st u) !! x
  = (λ d, d - if bool_decide (x = u) then 1 else 0) <$> indeg st !! x.
Proof.
  unfold release_user. case_bool_decide as Hx.
  - subst x. destruct (indeg st !! u) as [d|] eqn:Hm; simpl.
    + by rewrite lookup_insert_eq.
    + by rewrite Hm.
  - destruct (indeg st !! u) as [d|] eqn:Hm; simpl.
    + rewrite lookup_insert_ne by done.
      destruct (indeg st !! x); simpl; f_equal; lia.
    + destruct (indeg st !! x); simpl; f_equal; lia.
Qed.

Lemma release_user_unused st u :
  unused_nodes (release_user st u) = unused_nodes st.
Proof. unfold release_user. by destruct (indeg st !! u). Qed.

Lemma foldl_release_user_unused us st :
  unused_nodes (foldl release_user st us) = unused_nodes st.
Proof.
  revert st. induction us as [|u us IH]; intros st; simpl; [done|].
  by rewrite IH, release_user_unused.
Qed.

Lemma foldl_release_user_lookup us st x :
  indeg (foldl release_user st us) !! x
  = (λ d, d - Z.of_nat (count_occ String.string_dec us x)) <$> indeg st !! x.
Proof.
  revert st. induction us as [|u us IH]; intros st.
  - simpl. destruct (indeg st !! x); simpl; f_equal; lia.
  - cbn [foldl]. rewrite IH, release_user_lookup, count_occ_cons_Z.
    destruct (indeg st !! x); simpl; f_equal; lia.
Qed.

(** A node is in the free pool after the releases if it was there before,
    or if its count has come down to zero on the way. *)
Lemma foldl_release_user_free us st x :
  x ∈ free_nodes (foldl release_user st us) →
  x ∈ free_nodes st ∨
  ∃ d, indeg (foldl release_user st us) !! x = Some d ∧ d ≤ 0.
Proof.
  revert st. induction us as [|u us IH]; intros st; cbn [foldl]; [by left|].
  intros [Hfree|Hzero]%IH; [|by right].
  unfold release_user in Hfree.
  destruct (indeg st !! u) as [d|] eqn:Hu; [|by left]. simpl in Hfree.
  case_bool_decide as Hd; [|by left].
  apply elem_of_union in Hfree as [->%elem_of_singleton|Hfree]; [|by left].
  right. rewrite foldl_release_user_lookup, release_user_lookup, Hu.
  rewrite bool_decide_eq_true_2 by done. simpl.
  eexists. split; [done|]. lia.
Qed.

Lemma bool_decide_snoc (a node : Node) res :
  a ≠ node → bool_decide (a ∈ res ++ [node]) = bool_decide (a ∈ res).
Proof.
  intros Hne. apply bool_decide_ext.
  rewrite elem_of_app, list_elem_of_singleton. naive_solver.
Qed.

Lemma pending_preds_other l res node x :
  node ∉ l →
  sum_list_with
    (λ a, if bool_decide (a ∈ res ++ [node]) then 0%nat
          else count_occ String.string_dec (node_users g a) x) l
  = sum_list_with
      (λ a, if bool_decide (a ∈ res) then 0%nat
            else count_occ String.string_dec (node_users g a) x) l.
Proof.
  induction l as [|a l IH]; intros Hnot; [done|].
  cbn [sum_list_with].
  rewrite IH by (intros ?; apply Hnot; by right).
  rewrite bool_decide_snoc; [done|].
  intros ->. apply Hnot. by left.
Qed.

Lemma pending_preds_scheduled snodes res node x :
  NoDup snodes → node ∈ snodes → node ∉ res →
  pending_preds g snodes res x
  = (pending_preds g snodes (res ++ [node]) x
     + count_occ String.string_dec (node_users g node) x)%nat.
Proof.
  unfold pending_preds. intros Hnodup Hin Hnot.
  induction Hnodup as [|a l Ha Hnodup IH]; [by apply elem_of_nil in Hin|].
  cbn [sum_list_with]. apply elem_of_cons in Hin as [->|Hin].
  - rewrite pending_preds_other by done.
    rewrite (bool_decide_eq_false_2 (a ∈ res)) by done.
    rewrite (bool_decide_eq_true_2 (a ∈ res ++ [a])).
    + lia.
    + apply elem_of_app. right. by left.
  - rewrite IH by done.
    rewrite bool_decide_snoc by (by intros ->). lia.
Qed.

Lemma pending_preds_zero snodes res x a :
  pending_preds g snodes res x = 0%nat →
  a ∈ snodes → a ∉ res → x ∉ node_users g a.
Proof.
  unfold pending_preds. intros Hzero Ha Hnot.
  induction snodes as [|b l IH]; [by apply elem_of_nil in Ha|].
  simpl in Hzero. apply elem_of_cons in Ha as [->|Ha].
  - rewrite bool_decide_eq_false_2 in Hzero by done.
    intros Hx%list_elem_of_In.
    apply (count_occ_In String.string_dec) in Hx. lia.
  - apply IH; [lia|done].
Qed.

Lemma snoc_split (l l1 l2 : list Node) (x b : Node) :
  l ++ [x] = l1 ++ b :: l2 →
  (l2 = [] ∧ b = x ∧ l1 = l) ∨ ∃ l2', l2 = l2' ++ [x] ∧ l = l1 ++ b :: l2'.
Proof.
  intros Heq. destruct l2 as [|z l2 _] using rev_ind.
  - left. apply app_inj_tail in Heq as [-> ->]. done.
  - right. exists l2.
    change (l ++ [x] = l1 ++ (b :: l2) ++ [z]) in Heq.
    rewrite app_assoc in Heq. apply app_inj_tail in Heq as [-> ->]. done.
Qed.
End pools.

Section pools_kept.
Variable g : graph.
Variable environ : gmap string string.
Variable snodes : list Node.
Hypothesis snodes_NoDup : NoDup snodes.

Lemma py_assert_Ok b tr tr' u : py_assert b tr = (tr', Ok u) → b = true.
Proof. destruct b; [done|discriminate]. Qed.

Lemma add_node_Ok st node tr tr' st' :
  add_node g environ st node tr = (tr', Ok st') →
  node ∈ unused_nodes st ∧ node ∈ free_nodes st ∧
  st' = foldl release_user
          {| indeg := indeg st;
             free_nodes := free_nodes st ∖ {[node]};
             unused_nodes := unused_nodes st ∖ {[node]};
             result := result st ++ [node] |}
          (node_users g node).
Proof.
  intros Hrun. unfold add_node in Hrun.
  apply bind_Ok in Hrun as (tr1 & [] & Hunused & Hrun).
  apply bind_Ok in Hrun as (tr2 & [] & Hfree & Hrun).
  apply bind_Ok in Hrun as (tr3 & [] & _ & Hrun).
  apply ret_Ok in Hrun.
  apply py_assert_Ok, bool_decide_eq_true_1 in Hunused.
  apply py_assert_Ok, bool_decide_eq_true_1 in Hfree. done.
Qed.

Lemma add_node_pools st node :
  pools_inv g snodes st →
  ensures (add_node g environ st node) (pools_inv g snodes).
Proof.
  intros (K1 & K2 & K6 & K3 & K4 & K5) tr tr' st' Hrun.
  apply add_node_Ok in Hrun as (Hunused & Hfree & ->).
  apply K2 in Hunused as [Hin Hfresh].
  destruct (K4 _ Hfree) as [_ Hzero].
  assert (∀ x, indeg (foldl release_user
                        {| indeg := indeg st;
                           free_nodes := free_nodes st ∖ {[node]};
                           unused_nodes := unused_nodes st ∖ {[node]};
                           result := result st ++ [node] |}
                        (node_users g node)) !! x
               = if bool_decide (x ∈ snodes)
                 then Some (Z.of_nat
                              (pending_preds g snodes (result st ++ [node]) x))
                 else None) as K3'.
  { intros x. rewrite foldl_release_user_lookup. simpl. rewrite K3.
    case_bool_decide; [|done]. simpl. f_equal.
    rewrite (pending_preds_scheduled g snodes (result st) node x) by done.
    lia. }
  unfold pools_inv.
  rewrite foldl_release_user_result, foldl_release_user_unused. simpl.
  split; [|split; [|split; [|split; [|split]]]].
  - apply NoDup_app. split; [done|]. split; [|apply NoDup_singleton].
    intros x Hx ->%list_elem_of_singleton. done.
  - intros x. rewrite elem_of_difference, K2, elem_of_app,
      elem_of_singleton, list_elem_of_singleton. naive_solver.
  - intros x [Hx| ->%list_elem_of_singleton]%elem_of_app; [by apply K6|done].
  - done.
  - intros x [Hx|(d & Hd & Hle)]%foldl_release_user_free.
    + simpl in Hx. apply elem_of_difference in Hx as [Hx _].
      destruct (K4 _ Hx) as [Hxin Hxzero]. split; [done|].
      rewrite (pending_preds_scheduled g snodes (result st) node x)
        in Hxzero by done. lia.
    + rewrite K3' in Hd. case_bool_decide; [|done].
      split; [done|]. injection Hd as Hd. lia.
  - intros l1 b l2 a Hsplit Ha Hb.
    apply snoc_split in Hsplit as [(-> & -> & ->)|(l2' & -> & Hres)].
    + destruct (decide (a ∈ result st)) as [|Hnot]; [done|].
      by destruct (pending_preds_zero g snodes (result st) node a Hzero Ha Hnot).
    + by eapply K5.
Qed.

Lemma add_all_body_pools acc node :
  pools_inv g snodes acc.1.1 →
  ensures (add_all_body g environ acc node) (λ acc', pools_inv g snodes acc'.1.1).
Proof.
  destruct acc as [[st all_nodes] progress]. simpl. intros Hinv.
  unfold add_all_body. case_bool_decide; [|by apply ensures_ret].
  eapply ensures_bind; [by apply add_node_pools|].
  intros st' Hinv'. by apply ensures_ret.
Qed.

Lemma add_all_loop_pools fuel st all_nodes :
  pools_inv g snodes st →
  ensures (add_all_loop g environ fuel st all_nodes) (pools_inv g snodes).
Proof.
  revert st all_nodes.
  induction fuel as [|fuel IH]; intros st all_nodes Hinv; simpl.
  - case_bool_decide; [by intros tr tr' a [=]|by apply ensures_ret].
  - case_bool_decide; [|by apply ensures_ret].
    eapply ensures_bind.
    + apply (ensures_for_each _ _ _ (λ acc, pools_inv g snodes acc.1.1));
        [done|]. intros acc x. apply add_all_body_pools.
    + intros [[st1 all1] progress] Hinv1. simpl in Hinv1.
      eapply ensures_bind with (P := λ _, True); [by intros ????|].
      intros _ _. by apply IH.
Qed.

Lemma add_all_nodes_pools fuel st batch :
  pools_inv g snodes st →
  ensures (add_all_nodes g environ fuel st batch) (pools_inv g snodes).
Proof.
  intros Hinv. unfold add_all_nodes.
  eapply ensures_bind with (P := λ _, True); [by intros ????|].
  intros _ _. by apply add_all_loop_pools.
Qed.

Lemma priority2_loop_pools comm_cost overlappable_nodes st total_cost :
  pools_inv g snodes st →
  ensures (priority2_loop g environ comm_cost overlappable_nodes st total_cost)
          (λ r, pools_inv g snodes r.1).
Proof.
  revert st total_cost.
  induction overlappable_nodes as [|snode rest IH]; intros st total_cost Hinv;
    simpl.
  - by apply ensures_ret.
  - destruct (Qle_bool comm_cost total_cost); [by apply ensures_ret|].
    destruct (negb (is_comm g snode)); [|by apply IH].
    destruct (Qle_bool _ _); [by apply IH|].
    eapply ensures_bind; [by apply add_node_pools|].
    intros st1 Hinv1. by apply IH.
Qed.

Lemma overlap_step_pools fuel comm_nodes comm_ancestors comm_descendants acc idx :
  pools_inv g snodes acc.1 →
  ensures (overlap_step g environ fuel comm_nodes comm_ancestors
             comm_descendants acc idx)
          (λ r, pools_inv g snodes r.1).
Proof.
  destruct acc as [st rolled]. simpl. intros Hinv. unfold overlap_step.
  eapply ensures_bind with (P := λ _, True); [by intros ????|]. intros prev _.
  eapply ensures_bind with (P := λ _, True); [by intros ????|]. intros desc_prev _.
  eapply ensures_bind with (P := λ _, True); [by intros ????|]. intros cur _.
  eapply ensures_bind with (P := λ _, True); [by intros ????|]. intros anc_cur _.
  eapply ensures_bind with (P := λ _, True); [by intros ????|]. intros _ _.
  eapply ensures_bind with (P := λ _, True); [by intros ????|]. intros _ _.
  eapply ensures_bind; [by apply add_all_nodes_pools|]. intros st1 Hinv1.
  eapply ensures_bind with (P := λ _, True); [by intros ????|]. intros _ _.
  eapply ensures_bind with (P := λ r, pools_inv g snodes r.1).
  { destruct (Qle_bool _ _); [by apply ensures_ret|].
    by apply priority2_loop_pools. }
  intros [st2 total_cost] Hinv2. simpl in Hinv2.
  eapply ensures_bind with (P := λ _, True); [by intros ????|]. intros _ _.
  eapply ensures_bind with (P := λ _, True); [by intros ????|]. intros _ _.
  eapply ensures_bind; [by apply add_all_nodes_pools|]. intros st3 Hinv3.
  eapply ensures_bind with (P := λ _, True); [by intros ????|]. intros _ _.
  by apply ensures_ret.
Qed.

Lemma ensures_and {A} (m : M A) (P Q : A → Prop) :
  ensures m P → ensures m Q → ensures m (λ a, P a ∧ Q a).
Proof. intros HP HQ tr tr' a Ha. split; eauto. Qed.

Lemma initial_pools :
  pools_inv g snodes
    {| indeg := init_indeg g snodes;
       free_nodes :=
         list_to_set
           (List.filter (λ node, bool_decide (init_indeg g snodes !! node = Some 0))
              snodes);
       unused_nodes := list_to_set snodes;
       result := [] |}.
Proof.
  unfold pools_inv. simpl.
  split; [apply NoDup_nil_2|]. split; [|split; [|split; [|split]]].
  - intros x. rewrite elem_of_list_to_set. split; [|by intros []].
    intros Hx. split; [done|]. apply not_elem_of_nil.
  - by intros x Hx%elem_of_nil.
  - apply init_indeg_lookup.
  - intros x Hx. apply (proj1 (elem_of_list_to_set _ _)) in Hx.
    apply list_elem_of_In, filter_In in Hx as [Hx Hzero].
    apply list_elem_of_In in Hx. split; [done|].
    apply bool_decide_eq_true_1 in Hzero.
    rewrite init_indeg_lookup, bool_decide_eq_true_2 in Hzero by done.
    injection Hzero as Hzero. lia.
  - intros l1 b l2 a Heq. by destruct l1.
Qed.

(** The list that [overlap_schedule] builds holds every input node once
    and puts each node behind the input nodes it uses. *)
Lemma overlap_schedule_pools fuel comm_nodes :
  ensures (overlap_schedule g environ fuel snodes comm_nodes)
    (λ res, NoDup res ∧ (∀ x, x ∈ res ↔ x ∈ snodes) ∧
            ∀ l1 b l2 a, res = l1 ++ b :: l2 →
                         a ∈ snodes → b ∈ node_users g a → a ∈ l1).
Proof.
  unfold overlap_schedule.
  eapply ensures_bind with (P := λ _, True); [by intros ????|].
  intros comm_ancestors _.
  eapply ensures_bind with (P := λ _, True); [by intros ????|].
  intros comm_descendants _.
  eapply ensures_bind with (P := λ _, True); [by intros ????|]. intros _ _.
  eapply ensures_bind with (P := λ _, True); [by intros ????|]. intros c0 _.
  eapply ensures_bind with (P := λ _, True); [by intros ????|]. intros anc0 _.
  eapply ensures_bind; [apply add_all_nodes_pools, initial_pools|].
  intros st1 Hinv1.
  eapply ensures_bind with (P := λ r, pools_inv g snodes r.1).
  { apply (ensures_for_each _ _ _ (λ r, pools_inv g snodes r.1)); [done|].
    intros acc idx. apply overlap_step_pools. }
  intros r Hinv.
  eapply ensures_bind.
  { apply ensures_and;
      [by apply add_all_nodes_pools|apply add_all_nodes_result]. }
  intros st2 [(K1 & K2 & K6 & K3 & K4 & K5) [Hpre Hbatch]].
  apply ensures_ret. split; [done|]. split; [|done].
  intros x. split; [apply K6|]. intros Hx.
  destruct (decide (x ∈ result r.1)) as [Hres|Hnot].
  - by eapply elem_of_prefix.
  - apply Hbatch, elem_of_elements.
    destruct Hinv as (_ & K2r & _). by apply K2r.
Qed.

Lemma order_dependency_sound res :
  NoDup res → (∀ x, x ∈ res → x ∈ snodes) →
  (∀ l1 b l2 a, res = l1 ++ b :: l2 →
                a ∈ snodes → b ∈ node_users g a → a ∈ l1) →
  dependency_sound g ∅ res.
Proof.
  intros Hnodup Hin Horder a b i j [Huse|Hdep] Hi Hj.
  - assert (a ∈ take j res) as Ha.
    { apply (Horder _ b (drop (S j) res)).
      - by rewrite take_drop_middle.
      - apply Hin. by eapply list_elem_of_lookup_2.
      - done. }
    apply list_elem_of_lookup_1 in Ha as [i' Hi'].
    apply lookup_take_Some in Hi' as [Hi' Hlt].
    by rewrite (NoDup_lookup _ _ _ _ Hnodup Hi Hi').
  - rewrite lookup_empty in Hdep. simpl in Hdep. by apply elem_of_nil in Hdep.
Qed.
End pools_kept.

(** X1.  Whenever the scheduling part of
    [reorder_computation_for_overlap] (lines 135-254) completes on an
    input without repeated nodes, the list it has built is a permutation
    of the input: every input node is scheduled exactly once. *)
Theorem overlap_schedule_permutation (g : graph) (environ : gmap string string)
    (fuel : nat) (snodes comm_nodes : list Node) (tr tr' : list event)
    (res : list Node) :
  NoDup snodes →
  overlap_schedule g environ fuel snodes comm_nodes tr = (tr', Ok res) →
  res ≡ₚ snodes.
Proof.
  intros Hnodup Hrun.
  apply (overlap_schedule_pools g environ snodes Hnodup) in Hrun
    as (Hres & Hsame & _).
  by apply NoDup_Permutation.
Qed.

(** Scenario A: the scheduler builds [A; B; C]. *)
Lemma overlap_schedule_permutation_witness :
  ["A"; "B"; "C"] ≡ₚ ["A"; "B"; "C"].
Proof.
  apply (overlap_schedule_permutation scenario_A debug_off 10
           ["A"; "B"; "C"] ["B"] [] [EvBreakpoint] ["A"; "B"; "C"]).
  - apply (bool_decide_unpack _). vm_compute. exact I.
  - vm_compute. reflexivity.
Defined.

(** X2.  Whenever the scheduling part completes on an input without
    repeated nodes, the list it has built respects the data dependencies:
    each node stands behind every node of the list that has it among its
    [node_users]. *)
Theorem overlap_schedule_dependency_sound (g : graph)
    (environ : gmap string string) (fuel : nat)
    (snodes comm_nodes : list Node) (tr tr' : list event) (res : list Node) :
  NoDup snodes →
  overlap_schedule g environ fuel snodes comm_nodes tr = (tr', Ok res) →
  dependency_sound g ∅ res.
Proof.
  intros Hnodup Hrun.
  apply (overlap_schedule_pools g environ snodes Hnodup) in Hrun
    as (Hres & Hsame & Horder).
  apply (order_dependency_sound g snodes); [done| |done].
  intros x. apply Hsame.
Qed.

(** The input [C; B; A] of Scenario A is put into dependency order. *)
Lemma overlap_schedule_dependency_sound_witness :
  overlap_schedule scenario_A debug_off 10 ["C"; "B"; "A"] ["B"] []
    = ([EvBreakpoint], Ok ["A"; "B"; "C"]) ∧
  dependency_sound scenario_A ∅ ["A"; "B"; "C"].
Proof.
  split; [vm_compute; reflexivity|].
  apply (overlap_schedule_dependency_sound scenario_A debug_off 10
           ["C"; "B"; "A"] ["B"] [] [EvBreakpoint] ["A"; "B"; "C"]).
  - apply (bool_decide_unpack _). vm_compute. exact I.
  - vm_compute. reflexivity.
Defined.

(** ** The scheduler: the order of the communication nodes *)

Section comm_order.
Variable g : graph.
Variable environ : gmap string string.
Variable snodes : list Node.
Hypothesis snodes_NoDup : NoDup snodes.

Lemma comm_dict_dom f comm_nodes (d d' : gmap Node (gset Node)) :
  comm_dict f comm_nodes d = Ok d' →
  dom d' = dom d ∪ list_to_set comm_nodes.
Proof.
  revert d. induction comm_nodes as [|c l IH]; intros d; simpl.
  - intros [= <-]. set_solver.
  - destruct (f c) as [s| |]; simpl; try discriminate.
    intros Hd'%IH. rewrite Hd', dom_insert_L. set_solver.
Qed.

Lemma comm_dict_size f comm_nodes (d' : gmap Node (gset Node)) :
  NoDup comm_nodes →
  comm_dict f comm_nodes ∅ = Ok d' → size d' = length comm_nodes.
Proof.
  intros Hnodup Hd'%comm_dict_dom.
  rewrite dom_empty_L, (left_id_L ∅ (∪)) in Hd'.
  rewrite <- (size_dom d'), Hd'. by apply size_list_to_set.
Qed.

Lemma add_all_nodes_unused fuel st batch :
  ensures (add_all_nodes g environ fuel st batch)
          (λ _, ∀ x, x ∈ batch → x ∈ unused_nodes st).
Proof.
  intros tr tr' st' Hrun. unfold add_all_nodes in Hrun.
  apply bind_Ok in Hrun as (tr1 & [] & Hassert & _).
  apply py_assert_Ok in Hassert. rewrite forallb_forall in Hassert.
  intros x Hx.
  assert (In x (elements (list_to_set batch : gset Node))) as Hin.
  { apply list_elem_of_In, elem_of_elements, elem_of_list_to_set. done. }
  apply Hassert in Hin. by apply bool_decide_eq_true_1 in Hin.
Qed.

Lemma list_get_Ok (l : list Node) i :
  ensures (list_get l i) (λ c, l !! i = Some c).
Proof.
  intros tr tr' c. unfold list_get.
  destruct (l !! i); [|discriminate]. by intros ->%ret_Ok.
Qed.

(** A loop over consecutive indices, with an invariant that follows the
    index. *)
Lemma ensures_for_each_seq {A} (start len : nat) (a : A)
    (body : A → nat → M A) (J : nat → A → Prop) :
  J start a →
  (∀ i a, (start ≤ i < start + len)%nat → J i a → ensures (body a i) (J (S i))) →
  ensures (for_each (seq start len) a body) (J (start + len)%nat).
Proof.
  revert start a. induction len as [|len IH]; intros start a Ha Hbody; simpl.
  - apply ensures_ret. by rewrite Nat.add_0_r.
  - eapply ensures_bind; [apply Hbody; [lia|done]|].
    intros a' Ha'. rewrite <- Nat.add_succ_comm. apply IH; [done|].
    intros i a'' Hi. apply Hbody. lia.
Qed.

Lemma sublist_singleton (x : Node) l : x ∈ l → [x] `sublist_of` l.
Proof.
  intros (l1 & l2 & ->)%list_elem_of_split.
  apply sublist_inserts_l, sublist_skip, sublist_nil_l.
Qed.

Lemma sublist_snoc_fresh (l res res' : list Node) (x : Node) :
  l `sublist_of` res → res `prefix_of` res' → x ∉ res → x ∈ res' →
  l ++ [x] `sublist_of` res'.
Proof.
  intros Hsub [k ->] Hnot Hin. apply sublist_app; [done|].
  apply sublist_singleton.
  by apply elem_of_app in Hin as [?|?].
Qed.

(** Round [idx] puts the communication node [idx] behind the ones before
    it. *)
Lemma overlap_step_comm_order fuel comm_nodes comm_ancestors comm_descendants
    acc idx :
  pools_inv g snodes acc.1 →
  take idx comm_nodes `sublist_of` result acc.1 →
  ensures (overlap_step g environ fuel comm_nodes comm_ancestors
             comm_descendants acc idx)
          (λ r, pools_inv g snodes r.1 ∧
                take (S idx) comm_nodes `sublist_of` result r.1).
Proof.
  destruct acc as [st rolled]. simpl. intros Hinv Hsub. unfold overlap_step.
  eapply ensures_bind with (P := λ _, True); [by intros ????|]. intros prev _.
  eapply ensures_bind with (P := λ _, True); [by intros ????|]. intros desc_prev _.
  eapply ensures_bind; [apply list_get_Ok|]. intros cur Hcur.
  eapply ensures_bind with (P := λ _, True); [by intros ????|]. intros anc_cur _.
  eapply ensures_bind with (P := λ _, True); [by intros ????|]. intros _ _.
  eapply ensures_bind with (P := λ _, True); [by intros ????|]. intros _ _.
  eapply ensures_bind.
  { apply ensures_and;
      [by apply add_all_nodes_pools|apply add_all_nodes_result]. }
  intros st1 [Hinv1 [Hpre1 _]].
  eapply ensures_bind with (P := λ _, True); [by intros ????|]. intros _ _.
  eapply ensures_bind
    with (P := λ r, pools_inv g snodes r.1 ∧ result st1 `prefix_of` result r.1).
  { destruct (Qle_bool _ _); [by apply ensures_ret|].
    apply ensures_and; [by apply priority2_loop_pools|].
    eapply ensures_weaken; [apply priority2_loop_result|]. by intros r []. }
  intros [st2 total_cost] [Hinv2 Hpre2]. simpl in Hinv2, Hpre2.
  eapply ensures_bind with (P := λ _, True); [by intros ????|]. intros _ _.
  eapply ensures_bind with (P := λ _, True); [by intros ????|]. intros _ _.
  eapply ensures_bind.
  { apply ensures_and; [by apply add_all_nodes_pools|].
    apply ensures_and; [apply add_all_nodes_result|apply add_all_nodes_unused]. }
  intros st3 (Hinv3 & [Hpre3 Hbatch] & Hunused).
  eapply ensures_bind with (P := λ _, True); [by intros ????|]. intros _ _.
  apply ensures_ret. simpl. split; [done|].
  rewrite (take_S_r _ _ _ Hcur).
  assert (cur ∈ elements (unused_nodes st2 ∩ anc_cur) ++ [cur]) as Hin
    by (apply elem_of_app; right; by left).
  apply (sublist_snoc_fresh _ (result st2)).
  - destruct Hpre1 as [k1 Hk1], Hpre2 as [k2 Hk2]. rewrite Hk2, Hk1.
    by do 2 apply sublist_inserts_r.
  - done.
  - destruct Hinv2 as (_ & K2 & _). by apply K2, Hunused.
  - by apply Hbatch.
Qed.

(** The communication nodes stand in the list that [overlap_schedule]
    builds in the order of [comm_nodes]. *)
Lemma overlap_schedule_comm_order fuel comm_nodes :
  NoDup comm_nodes →
  ensures (overlap_schedule g environ fuel snodes comm_nodes)
          (λ res, comm_nodes `sublist_of` res).
Proof.
  intros Hnodup. unfold overlap_schedule.
  intros tr tr' res Hrun.
  apply bind_Ok in Hrun as (tr1 & comm_ancestors & Hanc & Hrun).
  unfold lift in Hanc. injection Hanc as _ Hanc.
  apply comm_dict_size in Hanc; [|done].
  revert tr1 tr' res Hrun. change (ensures ?m ?Q) with (ensures m Q).
  enough (ensures
            (comm_descendants <-
               lift (comm_dict (get_descendants g fuel) comm_nodes ∅) ;;
             breakpoint ;;
             c0 <- list_get comm_nodes 0 ;;
             anc0 <- dict_get comm_ancestors c0 ;;
             st <- add_all_nodes g environ fuel
                     {| indeg := init_indeg g snodes;
                        free_nodes :=
                          list_to_set
                            (List.filter
                               (λ node, bool_decide
                                          (init_indeg g snodes !! node = Some 0))
                               snodes);
                        unused_nodes := list_to_set snodes;
                        result := [] |}
                     (elements anc0 ++ [c0]) ;;
             r <- for_each (seq 1 (size comm_ancestors - 1)) (st, 0%Q)
                    (overlap_step g environ fuel comm_nodes comm_ancestors
                       comm_descendants) ;;
             st <- add_all_nodes g environ fuel r.1 (elements (unused_nodes r.1)) ;;
             ret (result st))
            (λ res, comm_nodes `sublist_of` res)) as Henough
    by (intros tr1 tr' res; apply Henough).
  eapply ensures_bind with (P := λ _, True); [by intros ????|].
  intros comm_descendants _.
  eapply ensures_bind with (P := λ _, True); [by intros ????|]. intros _ _.
  eapply ensures_bind; [apply list_get_Ok|]. intros c0 Hc0.
  eapply ensures_bind with (P := λ _, True); [by intros ????|]. intros anc0 _.
  eapply ensures_bind.
  { apply ensures_and;
      [by apply add_all_nodes_pools, initial_pools|apply add_all_nodes_result]. }
  intros st1 [Hinv1 [_ Hbatch1]].
  assert (1 + (size comm_ancestors - 1) = length comm_nodes)%nat as Hlen.
  { apply lookup_lt_Some in Hc0. lia. }
  eapply ensures_bind.
  { apply (ensures_for_each_seq 1 (size comm_ancestors - 1) _ _
             (λ i r, pools_inv g snodes r.1 ∧
                     take i comm_nodes `sublist_of` result r.1)).
    - split; [done|]. simpl.
      rewrite (take_S_r _ _ _ Hc0). simpl. apply sublist_singleton.
      apply Hbatch1, elem_of_app. right. by left.
    - intros i acc _ [Hinv Hsub]. by apply overlap_step_comm_order. }
  intros r [Hinv Hsub]. rewrite Hlen, take_ge in Hsub by done.
  eapply ensures_bind; [apply add_all_nodes_result|]. intros st2 [[k ->] _].
  apply ensures_ret. by apply sublist_inserts_r.
Qed.
End comm_order.

Lemma sublist_bool_filter {A} (p : A → bool) (l k : list A) :
  l `sublist_of` k → List.filter p l `sublist_of` List.filter p k.
Proof.
  induction 1 as [|x l k _ IH|x l k _ IH]; simpl.
  - constructor.
  - destruct (p x); [by apply sublist_skip|done].
  - destruct (p x); [by apply sublist_cons|done].
Qed.

Lemma sublist_same_length {A} (l k : list A) :
  l `sublist_of` k → (length k ≤ length l)%nat → l = k.
Proof.
  induction 1 as [|x l k _ IH|x l k Hsub _]; simpl; intros Hlen.
  - done.
  - f_equal. apply IH. lia.
  - apply sublist_length in Hsub. lia.
Qed.

Lemma bool_filter_Permutation_length {A} (p : A → bool) (l k : list A) :
  l ≡ₚ k → length (List.filter p l) = length (List.filter p k).
Proof.
  induction 1 as [|x l k _ IH|x y l|l k m _ IH1 _ IH2]; simpl.
  - done.
  - destruct (p x); simpl; lia.
  - destruct (p x), (p y); simpl; lia.
  - lia.
Qed.

(** X3.  Whenever the scheduling part completes on an input without
    repeated nodes, the communication nodes stand in the list it has built
    in their input order: the list, reduced to its communication nodes, is
    the input reduced to its communication nodes. *)
Theorem overlap_schedule_comm_order_kept (g : graph)
    (environ : gmap string string) (fuel : nat) (snodes : list Node)
    (tr tr' : list event) (res : list Node) :
  NoDup snodes →
  overlap_schedule g environ fuel snodes (List.filter (is_comm g) snodes) tr
    = (tr', Ok res) →
  List.filter (is_comm g) res = List.filter (is_comm g) snodes.
Proof.
  intros Hnodup Hrun.
  assert (List.filter (is_comm g) snodes `sublist_of` res) as Hsub.
  { apply (overlap_schedule_comm_order g environ snodes Hnodup) in Hrun;
      [done|].
    apply NoDup_ListNoDup, List.NoDup_filter. by apply NoDup_ListNoDup. }
  apply (overlap_schedule_pools g environ snodes Hnodup) in Hrun
    as (Hres & Hsame & _).
  assert (res ≡ₚ snodes) as Hperm by (by apply NoDup_Permutation).
  apply (sublist_bool_filter (is_comm g)) in Hsub.
  rewrite filter_idemp in Hsub. symmetry.
  apply sublist_same_length; [done|].
  by rewrite (bool_filter_Permutation_length _ _ _ Hperm).
Qed.

(** The run on [C2; X; C1], with [X] too costly to be taken between the
    two, builds [C2; C1; X]: [C2] stays before [C1]. *)
Lemma overlap_schedule_comm_order_kept_witness :
  List.filter (is_comm (comms_and_compute 30)) ["C2"; "C1"; "X"]
  = List.filter (is_comm (comms_and_compute 30)) ["C2"; "X"; "C1"].
Proof.
  apply (overlap_schedule_comm_order_kept (comms_and_compute 30) debug_off 10
           ["C2"; "X"; "C1"] [] [EvBreakpoint] ["C2"; "C1"; "X"]).
  - apply (bool_decide_unpack _). vm_compute. exact I.
  - vm_compute. reflexivity.
Defined.

(** ** The in-degree table and the urgency key *)

(** X17.  The table built by lines 138-142 has an entry for the nodes of
    the input and for no other node, and the entry of a node is the number
    of [node_users] entries that name it at the nodes of the input, an
    input node counted as often as it occurs. *)
Theorem init_indeg_counts (g : graph) (snodes : list Node) (x : Node) :
  init_indeg g snodes !! x
  = if bool_decide (x ∈ snodes)
    then Some (Z.of_nat
                 (sum_list_with
                    (λ a, count_occ String.string_dec (node_users g a) x)
                    snodes))
    else None.
Proof.
  rewrite init_indeg_lookup. by rewrite pending_preds_nil.
Qed.

Section urgency.
Variable comm_ancestors : gmap Node (gset Node).

Lemma earliest_from_spec (comms : list Node) (idx : nat) (node : Node) :
  let i := earliest_from comm_ancestors idx comms node in
  (idx ≤ i ≤ idx + length comms)%nat ∧
  (∀ j c, (j < i - idx)%nat → comms !! j = Some c →
          node ∉ default ∅ (comm_ancestors !! c)) ∧
  ((i < idx + length comms)%nat →
   ∃ c, comms !! (i - idx)%nat = Some c ∧
        node ∈ default ∅ (comm_ancestors !! c)).
Proof.
  revert idx. induction comms as [|c comms IH]; intros idx; simpl.
  - split; [lia|]. split; [intros j c; lia|lia].
  - case_bool_decide as Hin.
    + split; [lia|]. split; [intros j c'; lia|].
      intros _. exists c. by rewrite Nat.sub_diag.
    + destruct (IH (S idx)) as (Hrange & Hbefore & Hat).
      split; [lia|]. split.
      * intros [|j] c' Hj Hc'.
        -- by injection Hc' as <-.
        -- apply (Hbefore j); [lia|done].
      * intros Hlt. destruct Hat as (c' & Hc' & Hin'); [lia|].
        exists c'. split; [|done].
        replace (earliest_from comm_ancestors (S idx) comms node - idx)%nat
          with (S (earliest_from comm_ancestors (S idx) comms node - S idx))
          by lia.
        done.
Qed.
End urgency.

(** X20.  The sort key of Priority 2, [earliest_comm_descendant], is the
    index of the first communication node that has the node among its
    ancestors, and the number of communication nodes when there is none. *)
Theorem earliest_comm_descendant_first (comm_nodes : list Node)
    (comm_ancestors : gmap Node (gset Node)) (node : Node) :
  let i := earliest_comm_descendant comm_nodes comm_ancestors node in
  (i ≤ length comm_nodes)%nat ∧
  (∀ j c, (j < i)%nat → comm_nodes !! j = Some c →
          node ∉ default ∅ (comm_ancestors !! c)) ∧
  ((i < length comm_nodes)%nat →
   ∃ c, comm_nodes !! i = Some c ∧ node ∈ default ∅ (comm_ancestors !! c)).
Proof.
  intros i. subst i. unfold earliest_comm_descendant.
  destruct (earliest_from_spec comm_ancestors comm_nodes 0 node)
    as (Hrange & Hbefore & Hat).
  rewrite Nat.sub_0_r in Hbefore, Hat. simpl in *.
  split; [lia|]. split; [done|]. intros Hlt. by apply Hat.
Qed.
